(** * pkg/topom/redis.go: the pooled redis client of the cluster manager

    A shallow embedding of [RedisClient] and [RedisPool] and the proofs of
    their documented behaviour.

    Modelling decisions.
    - A [*RedisClient] is the record of its four fields.  A method with a
      pointer receiver is a state transformer over the pair of the receiver
      and the outside world.  The pool only reads the clients it holds (and
      closes their connections), so the idle lists hold the records; the
      identity of a client is the connection it owns.
    - The outside world is what the package reaches through [redis.Conn],
      [redis.DialTimeout], [time.Now] and [log]: the sequence of events
      performed so far (the wire), the number of clock readings taken and
      the number of connections dialled.  What the remote side answers, what
      the clock shows and whether a dial succeeds are given by a [Platform].
    - [time.Time] and [time.Duration] are integers (nanoseconds); Go's [int]
      is an integer too: the only arithmetic of the package is [30*1000]
      and [timeout / 2], which cannot wrap.  [float64] is the IEEE binary64
      format of [SpecFloat], and [float64(v)] rounds to the nearest float,
      ties to even.
    - [container/list] is a list whose head is [Front()].  Removing the
      front of an empty list dereferences nil in Go; this is the [Panic]
      outcome of the state monad.
    - Go visits the keys of a map in an unspecified order: [Close] and
      [Cleanup] take the order as an argument, and the theorems hold for
      every enumeration of the keys.
    - Every method of the pool holds the mutex of the pool from its first
      statement to its return, so each one is a single transformer of the
      pool and the world; the interleaving of callers is not modelled. *)

From Stdlib Require Import ZArith Ascii.
From Stdlib Require Import Floats.SpecFloat.
From stdpp Require Import base option list gmap strings fin_maps.

Open Scope Z_scope.
Set Warnings "-register-all".

(** ** Values exchanged with the remote node *)

Definition Conn := nat.
Definition Time := Z.
Definition Duration := Z.

(** A reply of the protocol, as redigo hands it over in an [interface{}]:
    nil, [int64], [[]byte], a status string, [[]interface{}] or
    [redis.Error]. *)
Inductive Reply :=
| RNil
| RInt (n : Z)
| RBulk (b : string)
| RStatus (s : string)
| RArray (l : list Reply)
| RError (msg : string).

(** An argument of a command, the [...interface{}] of [Do]. *)
Inductive Arg :=
| AStr (s : string)
| AInt (n : Z).

(** An operand of a format string. *)
Inductive FmtArg :=
| FInt (n : Z)
| FStr (s : string)
| FReply (r : Reply).

(** Modelled from the spec: the package pkg/utils/errors ([errors.New],
    [errors.Errorf], [errors.Trace]) is not part of the sources at hand.
    An error is the term that built it; [Foreign] stands for the errors
    made outside the package (by the transport, by a decoder, by [net]). *)
Inductive error :=
| New (msg : string)
| Errorf (format : string) (args : list FmtArg)
| Trace (cause : error)
| Foreign (msg : string).

(** A Go result [(v, err)]: [Ok v] when [err == nil]. *)
Inductive res (A : Type) :=
| Ok (v : A)
| Err (e : error).
Arguments Ok {A} v.
Arguments Err {A} e.

(** ** The outside world *)

Inductive Event :=
| EvDial (addr : string) (timeout : Duration)
| EvDo (conn : Conn) (cmd : string) (args : list Arg)
| EvClose (conn : Conn)
| EvWarnf (format : string) (args : list FmtArg).

Record World := mkWorld {
  wire : list Event;
  ticks : nat;
  dialled : nat
}.

Definition emit (ev : Event) (w : World) : World :=
  mkWorld (wire w ++ [ev]) (ticks w) (dialled w).

Definition tick (w : World) : World :=
  mkWorld (wire w) (S (ticks w)) (dialled w).

Definition connect (w : World) : World :=
  mkWorld (wire w) (ticks w) (S (dialled w)).

(** What lies outside the package. *)
Class Platform := {
  (** the value shown by the n-th reading of [time.Now] *)
  clock : nat -> Time;
  (** [redis.Conn.Do]: the reply to a command, given the world it is sent
      in (all that happened before) *)
  conn_Do : World -> Conn -> string -> list Arg -> res Reply;
  (** [redis.Conn.Close] *)
  conn_Close : World -> Conn -> option error;
  (** [redis.DialTimeout]: does the dial fail? *)
  dial : World -> string -> Duration -> option error;
  (** redigo's decoders, on a reply that came without an error *)
  decode_Values : Reply -> res (list Reply);
  decode_Ints : Reply -> res (list Z);
  decode_Int : Reply -> res Z;
  decode_String : Reply -> res string;
  (** package strings *)
  strings_Split : string -> string -> list string;
  strings_SplitN : string -> string -> Z -> list string;
  strings_TrimSpace : string -> string;
  (** package net *)
  net_JoinHostPort : string -> string -> string;
  net_SplitHostPort : string -> res (string * string)
}.

(** ** The state monad with panics *)

Inductive Res (S A : Type) :=
| Done (a : A) (s : S)
| Panic.
Arguments Done {S A} a s.
Arguments Panic {S A}.

Definition St (S A : Type) : Type := S -> Res S A.

Definition St_ret {S A} (a : A) : St S A := fun s => Done a s.

Definition St_bind {S A B} (f : A -> St S B) (m : St S A) : St S B :=
  fun s => match m s with
           | Done a s' => f a s'
           | Panic => Panic
           end.

Definition panic {S A} : St S A := fun _ => Panic.

#[global] Instance St_mret S : MRet (St S) := @St_ret S.
#[global] Instance St_mbind S : MBind (St S) := @St_bind S.

(** An action on the world, run beside a state it does not touch. *)
Definition inWorld {X A} (m : St World A) : St (X * World) A :=
  fun '(x, w) => match m w with
                 | Done a w' => Done a (x, w')
                 | Panic => Panic
                 end.

Section Code.
Context `{Platform}.

(** [time.Now()] *)
Definition time_Now : St World Time :=
  fun w => Done (clock (ticks w)) (tick w).

(** The instant the next reading of the clock shows. *)
Definition current (w : World) : Time := clock (ticks w).

(** [t.Add(d)] and [t.After(u)] *)
Definition Time_Add (t : Time) (d : Duration) : Time := t + d.
Definition Time_After (t u : Time) : bool := u <? t.

(** The helpers of redigo take the reply and the error of the call before
    them, and hand the error on when there is one. *)
Definition redis_Values (reply : Reply) (err : option error) : res (list Reply) :=
  match err with Some e => Err e | None => decode_Values reply end.

Definition redis_Ints (reply : Reply) (err : option error) : res (list Z) :=
  match err with Some e => Err e | None => decode_Ints reply end.

Definition redis_Int (reply : Reply) (err : option error) : res Z :=
  match err with Some e => Err e | None => decode_Int reply end.

Definition redis_String (reply : Reply) (err : option error) : res string :=
  match err with Some e => Err e | None => decode_String reply end.

(** [redis.Ints(redis.Values(reply, nil))]: the slice and the error of the
    inner call are the arguments of the outer one. *)
Definition redis_Ints_Values (reply : Reply) : res (list Z) :=
  match redis_Values reply None with
  | Ok values => redis_Ints (RArray values) None
  | Err e => redis_Ints (RArray []) (Some e)
  end.

(** ** RedisClient *)

Definition ErrFailedRedisClient : error := New "use of failed redis client".

Record RedisClient := mkClient {
  conn : Conn;
  addr : string;
  LastErr : option error;
  LastUse : Time
}.

Definition set_LastErr (e : error) (c : RedisClient) : RedisClient :=
  mkClient (conn c) (addr c) (Some e) (LastUse c).

Definition set_LastUse (t : Time) (c : RedisClient) : RedisClient :=
  mkClient (conn c) (addr c) (LastErr c) t.

Definition ClientSt : Type := RedisClient * World.

(** [redis.DialTimeout] followed by the optional [AUTH]. *)
Definition NewRedisClient (addr : string) (auth : string) (timeout : Duration)
  : St World (res RedisClient) :=
  fun w =>
    let w1 := emit (EvDial addr timeout) w in
    match dial w addr timeout with
    | Some err => Done (Err (Trace err)) w1
    | None =>
      let c := dialled w1 in
      let w2 := connect w1 in
      if decide (auth <> "") then
        let w3 := emit (EvDo c "AUTH" [AStr auth]) w2 in
        match conn_Do w2 c "AUTH" [AStr auth] with
        | Err err => Done (Err (Trace err)) (emit (EvClose c) w3)
        | Ok _ =>
          Done (Ok (mkClient c addr None (clock (ticks w3)))) (tick w3)
        end
      else
        Done (Ok (mkClient c addr None (clock (ticks w2)))) (tick w2)
    end.

(** [c.Close()] *)
Definition RedisClient_Close (c : RedisClient) : St World (option error) :=
  fun w => Done (conn_Close w (conn c)) (emit (EvClose (conn c)) w).

(** [c.command(cmd, args...)] *)
Definition command (cmd : string) (args : list Arg) : St ClientSt (res Reply) :=
  fun '(c, w) =>
    match LastErr c with
    | Some _ => Done (Err ErrFailedRedisClient) (c, w)
    | None =>
      let w1 := emit (EvDo (conn c) cmd args) w in
      match conn_Do w (conn c) cmd args with
      | Err err =>
        let e := Trace err in
        Done (Err e) (set_LastErr e c, w1)
      | Ok reply =>
        Done (Ok reply) (set_LastUse (clock (ticks w1)) c, tick w1)
      end
    end.

(** The loop of [SlotsInfo] over the decoded pairs; a pair is accepted
    when [err == nil] and [len(p) == 2]. *)
Fixpoint SlotsInfo_loop (i : Z) (infos : list Reply) (slots : gmap Z Z)
  : res (gmap Z Z) :=
  match infos with
  | [] => Ok slots
  | info :: infos' =>
    match redis_Ints info None with
    | Ok [p0; p1] => SlotsInfo_loop (i + 1) infos' (<[p0 := p1]> slots)
    | _ => Err (Errorf "invalid response[%d] = %v" [FInt i; FReply info])
    end
  end.

Definition SlotsInfo : St ClientSt (res (gmap Z Z)) :=
  r ← command "SLOTSINFO" [];
  match r with
  | Err err => mret (Err err)
  | Ok reply =>
    match redis_Values reply None with
    | Err err => mret (Err (Trace err))
    | Ok infos => mret (SlotsInfo_loop 0 infos ∅)
    end
  end.

Definition SlotsMgrtTagSlot (host port : string) (slotId : Z)
  : St ClientSt (res Z) :=
  r ← command "SLOTSMGRTTAGSLOT"
        [AStr host; AStr port; AInt (30 * 1000); AInt slotId];
  match r with
  | Err err => mret (Err err)
  | Ok reply =>
    match redis_Ints_Values reply with
    | Ok [p0; p1] =>
      if decide (p0 <> 0) then
        mret (Err (Errorf "migrate slot-%04d failed, response = %v"
                          [FInt slotId; FReply reply]))
      else mret (Ok p1)
    | _ => mret (Err (Errorf "invalid response = %v" [FReply reply]))
    end
  end.

(** The separator of lines, "\n" in the source. *)
Definition LF : string := String (Ascii.ascii_of_nat 10) EmptyString.

(** The loop of [GetInfo] over the lines of the text. *)
Fixpoint GetInfo_loop (lines : list string) (info : gmap string string)
  : gmap string string :=
  match lines with
  | [] => info
  | line :: lines' =>
    match strings_SplitN line ":" 2 with
    | [k; v] =>
      let key := strings_TrimSpace k in
      if decide (key <> "")
      then GetInfo_loop lines' (<[key := strings_TrimSpace v]> info)
      else GetInfo_loop lines' info
    | _ => GetInfo_loop lines' info
    end
  end.

Definition GetInfo : St ClientSt (res (gmap string string)) :=
  r ← command "INFO" [];
  match r with
  | Err err => mret (Err err)
  | Ok reply =>
    match redis_String reply None with
    | Err err => mret (Err (Trace err))
    | Ok text => mret (Ok (GetInfo_loop (strings_Split text LF) ∅))
    end
  end.

(** [info[key]] of a Go map: the empty string when the key is absent. *)
Definition index (info : gmap string string) (key : string) : string :=
  default "" (info !! key).

Definition GetMaster : St ClientSt (res string) :=
  r ← GetInfo;
  match r with
  | Err err => mret (Err err)
  | Ok info =>
    let host := index info "master_host" in
    let port := index info "master_port" in
    if decide (host = "" /\ port = "") then mret (Ok "")
    else mret (Ok (net_JoinHostPort host port))
  end.

(** [float64(v)] of an [int], rounded to the nearest, ties to even. *)
Definition float64 : Type := spec_float.
Definition float64_of_int (v : Z) : float64 := binary_normalize 53 1024 v 0 false.
(** [math.Inf(0)] *)
Definition math_Inf (sign : Z) : float64 := S754_infinity (sign <? 0).

Definition GetMaxMemory : St ClientSt (res float64) :=
  r ← command "CONFIG" [AStr "GET"; AStr "maxmemory"];
  match r with
  | Err err => mret (Err err)
  | Ok reply =>
    match redis_Values reply None with
    | Ok [p0; p1] =>
      match redis_Int p1 None with
      | Err _ => mret (Err (Errorf "invalid response = %v" [FReply reply]))
      | Ok v =>
        if decide (v <> 0) then mret (Ok (float64_of_int v))
        else mret (Ok (math_Inf 0))
      end
    | _ => mret (Err (Errorf "invalid response = %v" [FReply reply]))
    end
  end.

Definition SlaveOf (master : string) : St ClientSt (option error) :=
  fun '(c, w) =>
    if decide (master = addr c) then
      Done (Some (Errorf "can not slave of itself" [])) (c, w)
    else if decide (master = "") then
      (r ← command "SLAVEOF" [AStr "NO"; AStr "ONE"];
       match r with
       | Err err => mret (Some err)
       | Ok _ => mret None
       end) (c, w)
    else
      (r ← GetMaster;
       match r with
       | Err err => mret (Some err)
       | Ok m =>
         if decide (m = master) then mret None
         else
           match net_SplitHostPort master with
           | Err err => mret (Some (Trace err))
           | Ok (host, port) =>
             _ ← inWorld (fun w => Done tt
                    (emit (EvWarnf "redis set slaveof [M] %s <---> %s [S]"
                                   [FStr master; FStr (addr c)]) w));
             r ← command "SLAVEOF" [AStr host; AStr port];
             match r with
             | Err err => mret (Some err)
             | Ok _ => mret None
             end
           end
       end) (c, w).

(** ** RedisPool *)

Definition ErrClosedRedisPool : error := New "use of closed redis pool".

Record RedisPool := mkPool {
  auth : string;
  pool : gmap string (list RedisClient);
  timeout : Duration;
  closed : bool
}.

Definition set_pool (m : gmap string (list RedisClient)) (p : RedisPool)
  : RedisPool :=
  mkPool (auth p) m (timeout p) (closed p).

Definition set_closed (b : bool) (p : RedisPool) : RedisPool :=
  mkPool (auth p) (pool p) (timeout p) b.

Definition PoolSt : Type := RedisPool * World.

Definition NewRedisPool (auth : string) (timeout : Duration) : RedisPool :=
  mkPool auth ∅ timeout false.

(** [p.isRecyclable(c)]; the clock is read only on the last branch. *)
Definition isRecyclable (p : RedisPool) (c : RedisClient) : St World bool :=
  match LastErr c with
  | Some _ => mret false
  | None =>
    if decide (timeout p = 0) then mret true
    else
      now ← time_Now;
      mret (Time_After (Time_Add (LastUse c) (timeout p `quot` 2)) now)
  end.

(** [list.Remove(list.Front())] *)
Definition Remove_Front (l : list RedisClient)
  : St World (RedisClient * list RedisClient) :=
  match l with
  | c :: l' => mret (c, l')
  | [] => panic
  end.

(** The inner loop of [Close]: [for i := list.Len(); i != 0; i--]. *)
Fixpoint Close_loop (i : nat) (l : list RedisClient)
  : St World (list RedisClient) :=
  match i with
  | O => mret l
  | S i' =>
    '(c, l1) ← Remove_Front l;
    _ ← RedisClient_Close c;
    Close_loop i' l1
  end.

(** The range of [Close] over the keys, visited in [order]. *)
Fixpoint Close_range (order : list string) : St PoolSt unit :=
  match order with
  | [] => mret tt
  | addr :: order' =>
    fun '(p, w) =>
      match pool p !! addr with
      | None => Close_range order' (p, w)
      | Some l =>
        match Close_loop (length l) l w with
        | Done _ w' => Close_range order' (set_pool (delete addr (pool p)) p, w')
        | Panic => Panic
        end
      end
  end.

Definition Close (order : list string) : St PoolSt (option error) :=
  fun '(p, w) =>
    if closed p then Done None (p, w)
    else
      (_ ← Close_range order; mret None) (set_closed true p, w).

(** The inner loop of [Cleanup]. *)
Fixpoint Cleanup_loop (p : RedisPool) (i : nat) (l : list RedisClient)
  : St World (list RedisClient) :=
  match i with
  | O => mret l
  | S i' =>
    '(c, l1) ← Remove_Front l;
    b ← isRecyclable p c;
    if b : bool then Cleanup_loop p i' (l1 ++ [c])
    else
      _ ← RedisClient_Close c;
      Cleanup_loop p i' l1
  end.

(** The range of [Cleanup] over the keys, visited in [order]. *)
Fixpoint Cleanup_range (order : list string) : St PoolSt unit :=
  match order with
  | [] => mret tt
  | addr :: order' =>
    fun '(p, w) =>
      match pool p !! addr with
      | None => Cleanup_range order' (p, w)
      | Some l =>
        match Cleanup_loop p (length l) l w with
        | Done l' w' =>
          if decide (length l' = 0%nat)
          then Cleanup_range order' (set_pool (delete addr (pool p)) p, w')
          else Cleanup_range order' (set_pool (<[addr := l']> (pool p)) p, w')
        | Panic => Panic
        end
      end
  end.

Definition Cleanup (order : list string) : St PoolSt (option error) :=
  fun '(p, w) =>
    if closed p then Done (Some ErrClosedRedisPool) (p, w)
    else
      (_ ← Cleanup_range order; mret None) (p, w).

(** The loop of [GetClient]: the client found, if any, and what is left of
    the list. *)
Fixpoint GetClient_loop (p : RedisPool) (i : nat) (l : list RedisClient)
  : St World (option RedisClient * list RedisClient) :=
  match i with
  | O => mret (None, l)
  | S i' =>
    '(c, l1) ← Remove_Front l;
    b ← isRecyclable p c;
    if b : bool then mret (Some c, l1)
    else
      _ ← RedisClient_Close c;
      GetClient_loop p i' l1
  end.

Definition GetClient (addr : string) : St PoolSt (res RedisClient) :=
  fun '(p, w) =>
    if closed p then Done (Err ErrClosedRedisPool) (p, w)
    else
      match pool p !! addr with
      | Some l =>
        match GetClient_loop p (length l) l w with
        | Done (Some c, l') w' =>
          Done (Ok c) (set_pool (<[addr := l']> (pool p)) p, w')
        | Done (None, l') w' =>
          inWorld (NewRedisClient addr (auth p) (timeout p))
                  (set_pool (<[addr := l']> (pool p)) p, w')
        | Panic => Panic
        end
      | None => inWorld (NewRedisClient addr (auth p) (timeout p)) (p, w)
      end.

(** [PutClient] returns nothing. *)
Definition PutClient (client : RedisClient) : St PoolSt unit :=
  fun '(p, w) =>
    if closed p then
      inWorld (_ ← RedisClient_Close client; mret tt) (p, w)
    else
      match isRecyclable p client w with
      | Done false w' =>
        inWorld (_ ← RedisClient_Close client; mret tt) (p, w')
      | Done true w' =>
        let cache := default [] (pool p !! addr client) in
        Done tt (set_pool (<[addr client := client :: cache]> (pool p)) p, w')
      | Panic => Panic
      end.

(** ** The pool as its callers see it *)

Inductive PoolCall :=
| CallGetClient (addr : string)
| CallPutClient (client : RedisClient)
| CallCleanup (order : list string)
| CallClose (order : list string).

(** What a call hands back: a client with an error, an error alone, or
    nothing at all. *)
Inductive PoolReturn :=
| RetClient (r : res RedisClient)
| RetError (e : option error)
| RetNothing.

Definition call (k : PoolCall) : St PoolSt PoolReturn :=
  match k with
  | CallGetClient addr => r ← GetClient addr; mret (RetClient r)
  | CallPutClient client => _ ← PutClient client; mret RetNothing
  | CallCleanup order => e ← Cleanup order; mret (RetError e)
  | CallClose order => e ← Close order; mret (RetError e)
  end.

(** A sequence of calls, with what each handed back. *)
Fixpoint calls (ks : list PoolCall) : St PoolSt (list PoolReturn) :=
  match ks with
  | [] => mret []
  | k :: ks' => r ← call k; rs ← calls ks'; mret (r :: rs)
  end.

(** ** Notions used to state the properties *)

(** A run of [command] calls on one client. *)
Fixpoint commands (reqs : list (string * list Arg))
  : St ClientSt (list (res Reply)) :=
  match reqs with
  | [] => mret []
  | (cmd, args) :: reqs' =>
    r ← command cmd args; rs ← commands reqs'; mret (r :: rs)
  end.

(** The recyclability predicate in the words of its description: no
    recorded error, and either no idle timeout or a last use that, moved
    forward by half the timeout, lies after [now]. *)
Definition recyclable (timeout : Duration) (now : Time) (c : RedisClient)
  : Prop :=
  LastErr c = None /\
  (timeout = 0 \/ now < LastUse c + timeout `quot` 2).

(** The client was accepted, or rejected, at a reading of the clock taken
    between the readings number [n0] and [n1]. *)
Definition accepted (timeout : Duration) (n0 n1 : nat) (c : RedisClient)
  : Prop :=
  LastErr c = None /\
  (timeout = 0 \/
   exists n, (n0 <= n < n1)%nat /\ clock n < LastUse c + timeout `quot` 2).

Definition rejected (timeout : Duration) (n0 n1 : nat) (c : RedisClient)
  : Prop :=
  LastErr c <> None \/
  (timeout <> 0 /\
   exists n, (n0 <= n < n1)%nat /\ ~ clock n < LastUse c + timeout `quot` 2).

(** Keeping the recyclable members of a list, in the words of the
    description of Cleanup: each member is kept when the predicate accepts
    it and closed otherwise. *)
Fixpoint sweep (p : RedisPool) (l : list RedisClient)
  : St World (list RedisClient) :=
  match l with
  | [] => mret []
  | c :: l' =>
    b ← isRecyclable p c;
    if b : bool then kept ← sweep p l'; mret (c :: kept)
    else _ ← RedisClient_Close c; sweep p l'
  end.

(** The events that close the connections of the clients, in order. *)
Definition closes (l : list RedisClient) : list Event :=
  (fun c => EvClose (conn c)) <$> l.

(** The client has no recorded error, the predicate of any pool accepts it
    when its timing allows, and a command on it goes out on the wire. *)
Definition usable (c : RedisClient) (w : World) : Prop :=
  LastErr c = None /\
  (forall p, exists b w',
      isRecyclable p c w = Done b w' /\
      (b = true <-> recyclable (timeout p) (current w) c)) /\
  (forall cmd args, exists r c' w',
      command cmd args (c, w) = Done r (c', w') /\
      wire w' = wire w ++ [EvDo (conn c) cmd args]).

(** The client sits in an idle list of the pool. *)
Definition idle (p : RedisPool) (c : RedisClient) : Prop :=
  exists a l, pool p !! a = Some l /\ c ∈ l.

(** No connection is held twice by the registry, and all of them were
    dialled in this world. *)
Definition registry_wf (p : RedisPool) (w : World) : Prop :=
  (forall a1 a2 l1 l2 i1 i2 c1 c2,
      pool p !! a1 = Some l1 -> l1 !! i1 = Some c1 ->
      pool p !! a2 = Some l2 -> l2 !! i2 = Some c2 ->
      conn c1 = conn c2 -> a1 = a2 /\ i1 = i2) /\
  (forall c, idle p c -> (conn c < dialled w)%nat).

(** The order visits every key of the registry once. *)
Definition enumerates (order : list string) (p : RedisPool) : Prop :=
  NoDup order /\ forall a, a ∈ order <-> is_Some (pool p !! a).

(** The call fails with the error of a closed pool. *)
Definition fails_closed (r : PoolReturn) : Prop :=
  r = RetClient (Err ErrClosedRedisPool) \/
  r = RetError (Some ErrClosedRedisPool).

(** The call is an Acquire or a Cleanup. *)
Definition takes_only (k : PoolCall) : Prop :=
  match k with
  | CallGetClient _ | CallCleanup _ => True
  | _ => False
  end.

End Code.

(** A list split into two subsequences that keep its order. *)
Inductive splits {A} : list A -> list A -> list A -> Prop :=
| splits_nil : splits [] [] []
| splits_left x l k d : splits l k d -> splits (x :: l) (x :: k) d
| splits_right x l k d : splits l k d -> splits (x :: l) k (x :: d).

(** What an idle list becomes in the registry: an empty list is removed. *)
Definition pruned {A} (l : list A) : option (list A) :=
  match l with [] => None | _ => Some l end.

(** ** The value of a float64 *)

(** Does the float hold exactly the integer [n]? *)
Definition float64_holds (f : float64) (n : Z) : bool :=
  match f with
  | S754_zero _ => n =? 0
  | S754_finite s m e =>
    let v := if s then Z.neg m else Z.pos m in
    if 0 <=? e then v * 2 ^ e =? n else v =? n * 2 ^ (- e)
  | _ => false
  end.

Definition float64_is_zero (f : float64) : bool :=
  match f with S754_zero _ => true | _ => false end.

(** ** A platform to run the code on

    A stand-in for the remote side and the libraries, to evaluate the code
    on concrete inputs: the node answers by a fixed table, the decoders
    take integers, decimal bulk strings and arrays, and the string
    functions handle single-character separators and ASCII blanks. *)
Module Demo.

Definition values (r : Reply) : res (list Reply) :=
  match r with
  | RArray l => Ok l
  | RNil => Err (Foreign "redigo: nil returned")
  | RError msg => Err (Foreign msg)
  | _ => Err (Foreign "redigo: unexpected type for Values")
  end.

(** Decimal digits, most significant first. *)
Fixpoint digits (s : string) (acc : Z) : option Z :=
  match s with
  | EmptyString => Some acc
  | String a s' =>
    let n := Z.of_nat (Ascii.nat_of_ascii a) in
    if (48 <=? n) && (n <=? 57) then digits s' (10 * acc + (n - 48))
    else None
  end.

(** [strconv.ParseInt(s, 10, 64)] *)
Definition atoi (s : string) : res Z :=
  let signed :=
    match s with
    | EmptyString => None
    | String a s' =>
      if decide (a = "-"%char) then
        if decide (s' = "") then None else Z.opp <$> digits s' 0
      else if decide (a = "+"%char) then
        if decide (s' = "") then None else digits s' 0
      else digits s 0
    end in
  match signed with
  | Some n =>
    if (- 2 ^ 63 <=? n) && (n <? 2 ^ 63) then Ok n
    else Err (Foreign "strconv.ParseInt: value out of range")
  | None => Err (Foreign "strconv.ParseInt: invalid syntax")
  end.

Definition int (r : Reply) : res Z :=
  match r with
  | RInt n => Ok n
  | RBulk b => atoi b
  | RNil => Err (Foreign "redigo: nil returned")
  | RError msg => Err (Foreign msg)
  | _ => Err (Foreign "redigo: unexpected type for Int")
  end.

Fixpoint ints_of (l : list Reply) : res (list Z) :=
  match l with
  | [] => Ok []
  | r :: l' =>
    match int r, ints_of l' with
    | Ok n, Ok ns => Ok (n :: ns)
    | Err e, _ => Err e
    | _, Err e => Err e
    end
  end.

Definition ints (r : Reply) : res (list Z) :=
  match values r with
  | Ok l => ints_of l
  | Err e => Err e
  end.

Definition text (r : Reply) : res string :=
  match r with
  | RBulk b => Ok b
  | RStatus s => Ok s
  | RNil => Err (Foreign "redigo: nil returned")
  | RError msg => Err (Foreign msg)
  | _ => Err (Foreign "redigo: unexpected type for String")
  end.

(** The pieces of [s] between the occurrences of [sep]. *)
Fixpoint split_on (sep : ascii) (s : string) : list string :=
  match s with
  | EmptyString => [EmptyString]
  | String a s' =>
    if decide (a = sep) then EmptyString :: split_on sep s'
    else
      match split_on sep s' with
      | h :: t => String a h :: t
      | [] => [String a EmptyString]
      end
  end.

(** [s] cut at the first [sep]. *)
Fixpoint cut (sep : ascii) (s : string) : option (string * string) :=
  match s with
  | EmptyString => None
  | String a s' =>
    if decide (a = sep) then Some (EmptyString, s')
    else
      match cut sep s' with
      | Some (h, t) => Some (String a h, t)
      | None => None
      end
  end.

Definition blank (a : ascii) : bool :=
  let n := Ascii.nat_of_ascii a in
  ((9 <=? n) && (n <=? 13))%nat || (n =? 32)%nat.

Fixpoint trim_left (s : string) : string :=
  match s with
  | String a s' => if blank a then trim_left s' else s
  | EmptyString => EmptyString
  end.

Fixpoint trim_right (s : string) : string :=
  match s with
  | String a s' =>
    let r := trim_right s' in
    if blank a && bool_decide (r = EmptyString) then EmptyString
    else String a r
  | EmptyString => EmptyString
  end.

(** What INFO says on a replica of 10.0.0.1:6380, and on a master. *)
Definition info_replica : string :=
  "role:slave" +:+ LF +:+ "master_host:10.0.0.1" +:+ LF +:+
  "master_port:6380" +:+ LF.
Definition info_master : string :=
  "role:master" +:+ LF +:+ "master_host:" +:+ LF +:+ "master_port:" +:+ LF.

(** The answers of the remote side: the node behind connection 3 is a
    master, the others are replicas of 10.0.0.1:6380; a migration to
    10.0.0.2 moves 17 keys, one to 10.0.0.3 fails with status 1. *)
Definition answer (c : Conn) (cmd : string) (args : list Arg) : res Reply :=
  if decide (cmd = "SLOTSMGRTTAGSLOT") then
    match args with
    | [AStr host; _; _; _] =>
      if decide (host = "10.0.0.2") then Ok (RArray [RInt 0; RInt 17])
      else if decide (host = "10.0.0.3") then Ok (RArray [RInt 1; RInt 0])
      else Ok (RArray [RInt 0])
    | _ => Ok RNil
    end
  else if decide (cmd = "CONFIG") then
    if decide (c = 3%nat) then Ok (RArray [RBulk "maxmemory"; RBulk "0"])
    else Ok (RArray [RBulk "maxmemory"; RBulk "9007199254740993"])
  else if decide (cmd = "SLOTSINFO") then
    Ok (RArray [RArray [RInt 1; RInt 2; RInt 3]])
  else if decide (cmd = "INFO") then
    if decide (c = 3%nat) then Ok (RBulk info_master)
    else Ok (RBulk info_replica)
  else if decide (cmd = "PING") then Ok (RStatus "PONG")
  else Err (Foreign "connection reset by peer").

#[local] Instance platform : Platform := {|
  clock := fun n => 1000 * Z.of_nat n;
  conn_Do := fun _ c cmd args => answer c cmd args;
  conn_Close := fun _ _ => None;
  dial := fun _ _ _ => None;
  decode_Values := values;
  decode_Ints := ints;
  decode_Int := int;
  decode_String := text;
  strings_Split := fun s sep =>
    match sep with
    | String a EmptyString => split_on a s
    | _ => [s]
    end;
  strings_SplitN := fun s sep _ =>
    match sep with
    | String a EmptyString =>
      match cut a s with Some (h, t) => [h; t] | None => [s] end
    | _ => [s]
    end;
  strings_TrimSpace := fun s => trim_right (trim_left s);
  net_JoinHostPort := fun h p => h +:+ ":" +:+ p;
  net_SplitHostPort := fun s =>
    match cut ":"%char s with
    | Some (h, p) => Ok (h, p)
    | None => Err (Foreign "missing port in address")
    end
|}.

Definition w0 : World := mkWorld [] 0%nat 4%nat.

(** A healthy client, a poisoned one, and a healthy one on a master. *)
Definition c0 : RedisClient := mkClient 0%nat "10.0.0.9:6379" None 0.
Definition c1 : RedisClient :=
  mkClient 1%nat "10.0.0.9:6379" (Some (Trace (Foreign "broken pipe"))) 0.
Definition c3 : RedisClient := mkClient 3%nat "10.0.0.8:6379" None 0.

(** An open pool that holds the first two, with an idle timeout of 10
    seconds. *)
Definition p0 : RedisPool :=
  mkPool "" {[ "10.0.0.9:6379" := [c1; c0] ]} 10000000000 false.

End Demo.

(** ** The client as its callers see it *)

Inductive ClientCall :=
| DoSlotsInfo
| DoSlotsMgrtTagSlot (host port : string) (slotId : Z)
| DoGetInfo
| DoGetMaster
| DoGetMaxMemory
| DoSlaveOf (master : string).

(** The error of a Go result, nil when there is none. *)
Definition err_of {A} (r : res A) : option error :=
  match r with Ok _ => None | Err e => Some e end.

(** A map after one more entry was read: [f] says what the entry
    contributes, if anything. *)
Definition put_field `{Countable K} {A B} (f : A -> option (K * B))
    (m : gmap K B) (x : A) : gmap K B :=
  match f x with
  | Some (k, v) => <[k := v]> m
  | None => m
  end.

Section Callers.
Context `{Platform}.

(** One method call on a client; the error it returns. *)
Definition invoke (k : ClientCall) : St ClientSt (option error) :=
  match k with
  | DoSlotsInfo => r ← SlotsInfo; mret (err_of r)
  | DoSlotsMgrtTagSlot host port slotId =>
    r ← SlotsMgrtTagSlot host port slotId; mret (err_of r)
  | DoGetInfo => r ← GetInfo; mret (err_of r)
  | DoGetMaster => r ← GetMaster; mret (err_of r)
  | DoGetMaxMemory => r ← GetMaxMemory; mret (err_of r)
  | DoSlaveOf master => SlaveOf master
  end.

Fixpoint invokes (ks : list ClientCall) : St ClientSt (list (option error)) :=
  match ks with
  | [] => mret []
  | k :: ks' => e ← invoke k; es ← invokes ks'; mret (e :: es)
  end.

(** What the use of a client may change: the connection and the address
    stay, no connection is dialled, and the wire only grows by commands on
    that connection and by log lines. *)
Definition used (c : RedisClient) (w : World) (c' : RedisClient) (w' : World)
  : Prop :=
  conn c' = conn c /\ addr c' = addr c /\
  dialled w' = dialled w /\ (ticks w <= ticks w')%nat /\
  exists evs,
    wire w' = wire w ++ evs /\
    Forall (fun ev => (exists cmd args, ev = EvDo (conn c) cmd args) \/
                      (exists format args, ev = EvWarnf format args)) evs.

(** Every idle client is healthy and sits in the list of its address. *)
Definition filed (p : RedisPool) : Prop :=
  forall a l c, pool p !! a = Some l -> c ∈ l -> addr c = a /\ LastErr c = None.

(** The connections handed out and not yet given back ([held]) and the
    idle ones are all different and were all dialled. *)
Definition owned (held : list Conn) (p : RedisPool) (w : World) : Prop :=
  NoDup held /\
  (forall a l, pool p !! a = Some l -> NoDup (conn <$> l)) /\
  (forall a1 a2 l1 l2 c1 c2,
      a1 <> a2 -> pool p !! a1 = Some l1 -> pool p !! a2 = Some l2 ->
      c1 ∈ l1 -> c2 ∈ l2 -> conn c1 <> conn c2) /\
  (forall c, idle p c -> conn c ∉ held) /\
  (forall c, idle p c -> (conn c < dialled w)%nat) /\
  (forall n, n ∈ held -> (n < dialled w)%nat).

(** Every idle list of [p'] is what is left of the list of the same
    address in [p], in the same order. *)
Definition shrunk (p' p : RedisPool) : Prop :=
  forall a l', pool p' !! a = Some l' ->
               exists l, pool p !! a = Some l /\ l' `sublist_of` l.

(** The connections held by the callers after a call: an Acquire that
    hands out a client adds its connection, a Release takes the one of its
    client away. *)
Definition held_after (k : PoolCall) (r : PoolReturn) (held : list Conn)
  : list Conn :=
  match k, r with
  | CallGetClient _, RetClient (Ok c) => conn c :: held
  | CallPutClient c, _ => filter (fun n => n <> conn c) held
  | _, _ => held
  end.

(** A Release gives back a connection that is held. *)
Definition releases_held (k : PoolCall) (held : list Conn) : Prop :=
  match k with
  | CallPutClient c => conn c ∈ held
  | _ => True
  end.

(** What an Acquire for an address hands out is a client of that address
    with no recorded error. *)
Definition hands_out (k : PoolCall) (r : PoolReturn) : Prop :=
  match k, r with
  | CallGetClient a, RetClient (Ok c) => addr c = a /\ LastErr c = None
  | _, _ => True
  end.

(** The entry of a shard in the reply of SLOTSINFO decodes to a pair. *)
Definition pair_of (info : Reply) (pr : Z * Z) : Prop :=
  redis_Ints info None = Ok [pr.1; pr.2].

(** What a line of INFO contributes: its trimmed key and value, when it
    has a colon and the key is not empty. *)
Definition field_of (line : string) : option (string * string) :=
  match strings_SplitN line ":" 2 with
  | [k; v] =>
    if decide (strings_TrimSpace k <> "")
    then Some (strings_TrimSpace k, strings_TrimSpace v)
    else None
  | _ => None
  end.

End Callers.

(** * A second remote side

    A node that reports three slot entries, two of them for slot 0, and a
    memory limit that is no integer; everything else is as in [Demo]. *)

Module Server.

Definition answer (c : Conn) (cmd : string) (args : list Arg) : res Reply :=
  if decide (cmd = "SLOTSINFO") then
    Ok (RArray [RArray [RInt 0; RInt 5]; RArray [RInt 7; RInt 2];
                RArray [RInt 0; RInt 9]])
  else if decide (cmd = "CONFIG") then
    Ok (RArray [RBulk "maxmemory"; RBulk "1gb"])
  else Demo.answer c cmd args.

#[local] Instance platform : Platform := {|
  clock := @clock Demo.platform;
  conn_Do := fun _ c cmd args => answer c cmd args;
  conn_Close := @conn_Close Demo.platform;
  dial := @dial Demo.platform;
  decode_Values := @decode_Values Demo.platform;
  decode_Ints := @decode_Ints Demo.platform;
  decode_Int := @decode_Int Demo.platform;
  decode_String := @decode_String Demo.platform;
  strings_Split := @strings_Split Demo.platform;
  strings_SplitN := @strings_SplitN Demo.platform;
  strings_TrimSpace := @strings_TrimSpace Demo.platform;
  net_JoinHostPort := @net_JoinHostPort Demo.platform;
  net_SplitHostPort := @net_SplitHostPort Demo.platform
|}.

(** An open pool with no idle timeout that holds one healthy client. *)
Definition p1 : RedisPool :=
  mkPool "" {[ "10.0.0.9:6379" := [Demo.c0] ]} 0 false.

(** A pool with an idle timeout of two seconds, and the world at the
    first and second reading of the clock. *)
Definition p2 : RedisPool := mkPool "" ∅ 2000 false.
Definition w1 : World := mkWorld [] 1%nat 4%nat.
Definition w2 : World := mkWorld [] 2%nat 4%nat.

End Server.
(** * Proofs *)

Section Client_facts.
Context `{Platform}.

(** ** The monad *)

Lemma bind_Done {S A B} (m : St S A) (f : A -> St S B) s a s' :
  m s = Done a s' -> (m ≫= f) s = f a s'.
Proof. intros Hm. unfold mbind, St_mbind, St_bind. by rewrite Hm. Qed.

Lemma bind_Panic {S A B} (m : St S A) (f : A -> St S B) s :
  m s = Panic -> (m ≫= f) s = Panic.
Proof. intros Hm. unfold mbind, St_mbind, St_bind. by rewrite Hm. Qed.

(** ** The command primitive *)

(** A poisoned client answers [command] with the fixed error and nothing
    else happens. *)
Lemma command_poisoned cmd args c w e :
  LastErr c = Some e ->
  command cmd args (c, w) = Done (Err ErrFailedRedisClient) (c, w).
Proof. intros He. unfold command. by rewrite He. Qed.

(** A healthy client sends the command; the outcome of the send decides
    what follows. *)
Lemma command_sent cmd args c w reply :
  LastErr c = None ->
  conn_Do w (conn c) cmd args = Ok reply ->
  command cmd args (c, w)
  = Done (Ok reply)
         (set_LastUse (current w) c, tick (emit (EvDo (conn c) cmd args) w)).
Proof. intros Hc Hdo. unfold command. by rewrite Hc, Hdo. Qed.

Lemma command_failed cmd args c w err :
  LastErr c = None ->
  conn_Do w (conn c) cmd args = Err err ->
  command cmd args (c, w)
  = Done (Err (Trace err))
         (set_LastErr (Trace err) c, emit (EvDo (conn c) cmd args) w).
Proof. intros Hc Hdo. unfold command. by rewrite Hc, Hdo. Qed.

(** Whatever the client, [command] returns, and what it adds to the wire
    is the command at most. *)
Lemma command_total cmd args c w :
  exists r c' w',
    command cmd args (c, w) = Done r (c', w') /\
    conn c' = conn c /\
    (wire w' = wire w \/ wire w' = wire w ++ [EvDo (conn c) cmd args]).
Proof.
  unfold command. destruct (LastErr c); [by eauto 10|].
  destruct (conn_Do w (conn c) cmd args); eauto 10.
Qed.

Lemma commands_poisoned (reqs : list (string * list Arg)) c w e :
  LastErr c = Some e ->
  commands reqs (c, w)
  = Done ((fun _ => Err ErrFailedRedisClient) <$> reqs) (c, w).
Proof.
  intros He. induction reqs as [|[cmd args] reqs IH]; [done|].
  cbn [commands].
  rewrite (bind_Done _ _ _ _ _ (command_poisoned cmd args c w e He)).
  by rewrite (bind_Done _ _ _ _ _ IH).
Qed.

(** C1. Once [LastErr] is set, every later call of [command] returns
    [ErrFailedRedisClient] at once: whatever the run of calls, each of them
    gets that error, the world is the same afterwards (nothing was sent)
    and so is the client, [LastErr] and [LastUse] included; the client
    therefore stays poisoned for ever. *)
Theorem command_poisoned_forever (reqs : list (string * list Arg)) c w e :
  LastErr c = Some e ->
  commands reqs (c, w)
  = Done ((fun _ => Err ErrFailedRedisClient) <$> reqs) (c, w).
Proof. apply commands_poisoned. Qed.

(** A transport error poisons the client: the failed send records the
    error, and every command after it gets [ErrFailedRedisClient] with
    nothing sent. *)
Lemma transport_error_poisons cmd args reqs c w err :
  LastErr c = None ->
  conn_Do w (conn c) cmd args = Err err ->
  commands ((cmd, args) :: reqs) (c, w)
  = Done (Err (Trace err) :: ((fun _ => Err ErrFailedRedisClient) <$> reqs))
         (set_LastErr (Trace err) c, emit (EvDo (conn c) cmd args) w).
Proof.
  intros Hc Hdo. cbn [commands].
  rewrite (bind_Done _ _ _ _ _ (command_failed cmd args c w err Hc Hdo)).
  by rewrite (bind_Done _ _ _ _ _
                (commands_poisoned reqs (set_LastErr (Trace err) c) _
                                   (Trace err) eq_refl)).
Qed.

(** Every method of a poisoned client fails with nothing sent and the
    client as it was; all but a SlaveOf of the client's own address fail
    with [ErrFailedRedisClient]. *)
Lemma poisoned_methods c w e :
  LastErr c = Some e ->
  SlotsInfo (c, w) = Done (Err ErrFailedRedisClient) (c, w) /\
  (forall host port slotId,
      SlotsMgrtTagSlot host port slotId (c, w)
      = Done (Err ErrFailedRedisClient) (c, w)) /\
  GetInfo (c, w) = Done (Err ErrFailedRedisClient) (c, w) /\
  GetMaster (c, w) = Done (Err ErrFailedRedisClient) (c, w) /\
  GetMaxMemory (c, w) = Done (Err ErrFailedRedisClient) (c, w) /\
  (forall master,
      SlaveOf master (c, w)
      = Done (Some (if decide (master = addr c)
                    then Errorf "can not slave of itself" []
                    else ErrFailedRedisClient)) (c, w)).
Proof.
  intros He.
  assert (Hinfo : GetInfo (c, w) = Done (Err ErrFailedRedisClient) (c, w)).
  { unfold GetInfo.
    by rewrite (bind_Done _ _ _ _ _ (command_poisoned _ _ c w e He)). }
  assert (Hmaster : GetMaster (c, w) = Done (Err ErrFailedRedisClient) (c, w)).
  { unfold GetMaster. by rewrite (bind_Done _ _ _ _ _ Hinfo). }
  split_and!; try done.
  - unfold SlotsInfo.
    by rewrite (bind_Done _ _ _ _ _ (command_poisoned _ _ c w e He)).
  - intros host port slotId. unfold SlotsMgrtTagSlot.
    by rewrite (bind_Done _ _ _ _ _ (command_poisoned _ _ c w e He)).
  - unfold GetMaxMemory.
    by rewrite (bind_Done _ _ _ _ _ (command_poisoned _ _ c w e He)).
  - intros master. unfold SlaveOf.
    destruct (decide (master = addr c)); [done|].
    destruct (decide (master = "")).
    + by rewrite (bind_Done _ _ _ _ _ (command_poisoned _ _ c w e He)).
    + by rewrite (bind_Done _ _ _ _ _ Hmaster).
Qed.

(** The master lookup joins the two fields of INFO, and reports no master
    when both are empty. *)
Lemma GetMaster_info c w info st :
  GetInfo (c, w) = Done (Ok info) st ->
  GetMaster (c, w)
  = Done (Ok (if decide (index info "master_host" = ""
                         /\ index info "master_port" = "")
              then ""
              else net_JoinHostPort (index info "master_host")
                                    (index info "master_port"))) st.
Proof.
  intros Hinfo. unfold GetMaster. rewrite (bind_Done _ _ _ _ _ Hinfo).
  by destruct (decide (_ /\ _)).
Qed.

(** No client comes out of a failed authentication: the connection that
    was dialled is closed and the error of AUTH is returned. *)
Lemma NewRedisClient_auth_failed a au t w err :
  dial w a t = None ->
  au <> "" ->
  conn_Do (connect (emit (EvDial a t) w)) (dialled w) "AUTH" [AStr au]
  = Err err ->
  exists w',
    NewRedisClient a au t w = Done (Err (Trace err)) w' /\
    wire w'
    = wire w ++ [EvDial a t; EvDo (dialled w) "AUTH" [AStr au];
                 EvClose (dialled w)].
Proof.
  intros Hdial Hau Hdo. unfold NewRedisClient. rewrite Hdial.
  destruct (decide (au <> "")); [|done].
  cbn [emit dialled] in *. rewrite Hdo.
  eexists. split; [reflexivity|]. cbn. by rewrite <- !app_assoc.
Qed.

(** ** Shard migration *)

(** C9. When the migration command got its reply, the outcome follows the
    decoded pair: status 0 gives the moved count and no error; another
    status gives the migration failure made of the shard id and the raw
    reply; a reply that does not decode to two integers (wrong arity, or a
    decoder error) gives the invalid-response error. *)
Theorem SlotsMgrtTagSlot_reply host port slotId c w reply :
  LastErr c = None ->
  conn_Do w (conn c) "SLOTSMGRTTAGSLOT"
          [AStr host; AStr port; AInt (30 * 1000); AInt slotId] = Ok reply ->
  let st' := (set_LastUse (current w) c,
              tick (emit (EvDo (conn c) "SLOTSMGRTTAGSLOT"
                     [AStr host; AStr port; AInt (30 * 1000); AInt slotId]) w))
  in
  (forall moved,
      redis_Ints_Values reply = Ok [0; moved] ->
      SlotsMgrtTagSlot host port slotId (c, w) = Done (Ok moved) st') /\
  (forall status moved,
      status <> 0 ->
      redis_Ints_Values reply = Ok [status; moved] ->
      SlotsMgrtTagSlot host port slotId (c, w)
      = Done (Err (Errorf "migrate slot-%04d failed, response = %v"
                          [FInt slotId; FReply reply])) st') /\
  (forall ps,
      redis_Ints_Values reply = Ok ps -> length ps <> 2%nat ->
      SlotsMgrtTagSlot host port slotId (c, w)
      = Done (Err (Errorf "invalid response = %v" [FReply reply])) st') /\
  (forall e,
      redis_Ints_Values reply = Err e ->
      SlotsMgrtTagSlot host port slotId (c, w)
      = Done (Err (Errorf "invalid response = %v" [FReply reply])) st').
Proof.
  intros Hc Hdo st'. unfold SlotsMgrtTagSlot.
  rewrite (bind_Done _ _ _ _ _ (command_sent _ _ c w reply Hc Hdo)).
  repeat split.
  - intros moved ->. by destruct (decide (0 <> 0)).
  - intros status moved Hs ->. by destruct (decide (status <> 0)).
  - intros ps -> Hlen. by destruct ps as [|? [|? [|? ?]]].
  - by intros e ->.
Qed.

(** ** Decoding errors *)

Lemma isRecyclable_run p c w :
  exists b w',
    isRecyclable p c w = Done b w' /\
    (b = true <-> recyclable (timeout p) (current w) c) /\
    wire w' = wire w /\ dialled w' = dialled w /\
    (ticks w <= ticks w' <= S (ticks w))%nat /\
    (b = true -> accepted (timeout p) (ticks w) (ticks w') c) /\
    (b = false -> rejected (timeout p) (ticks w) (ticks w') c).
Proof.
  unfold isRecyclable, recyclable, accepted, rejected.
  destruct (LastErr c) as [e|] eqn:He.
  { exists false, w. cbn. split_and!; try done; try lia.
    - split; [done|]. by intros [? _].
    - intros _. by left. }
  destruct (decide (timeout p = 0)) as [Ht|Ht].
  { exists true, w. cbn. split_and!; try done; try lia; auto.
    split; auto. }
  exists (Time_After (Time_Add (LastUse c) (timeout p `quot` 2))
                     (clock (ticks w))), (tick w).
  unfold Time_After, Time_Add, current. cbn.
  split_and!; try done; try lia.
  - rewrite Z.ltb_lt. split; [auto|]. intros [_ [?|?]]; [done|lia].
  - rewrite Z.ltb_lt. intros Hlt. split; [done|]. right.
    exists (ticks w). split; [lia|done].
  - rewrite Z.ltb_ge. intros Hge. right. split; [done|].
    exists (ticks w). split; [lia|lia].
Qed.

(** A client without a recorded error is usable. *)
Lemma usable_intro c w : LastErr c = None -> usable c w.
Proof.
  intros Hc. split_and!; [done| |].
  - intros p. destruct (isRecyclable_run p c w) as (b & w' & ? & ? & _).
    eauto.
  - intros cmd args. unfold command. rewrite Hc.
    destruct (conn_Do w (conn c) cmd args); eauto 10.
Qed.

(** The three queries leave the client as [command] left it. *)
Lemma SlotsInfo_state c w r0 st :
  command "SLOTSINFO" [] (c, w) = Done r0 st ->
  exists r, SlotsInfo (c, w) = Done r st.
Proof.
  intros Hcmd. unfold SlotsInfo. rewrite (bind_Done _ _ _ _ _ Hcmd).
  destruct r0 as [reply|e]; [|by eauto].
  destruct (redis_Values reply None); by eauto.
Qed.

Lemma SlotsMgrtTagSlot_state host port slotId c w r0 st :
  command "SLOTSMGRTTAGSLOT"
          [AStr host; AStr port; AInt (30 * 1000); AInt slotId] (c, w)
  = Done r0 st ->
  exists r, SlotsMgrtTagSlot host port slotId (c, w) = Done r st.
Proof.
  intros Hcmd. unfold SlotsMgrtTagSlot. rewrite (bind_Done _ _ _ _ _ Hcmd).
  destruct r0 as [reply|e]; [|by eauto].
  destruct (redis_Ints_Values reply) as [[|p0 [|p1 [|? ?]]]|]; try by eauto.
  destruct (decide (p0 <> 0)); by eauto.
Qed.

Lemma GetMaxMemory_state c w r0 st :
  command "CONFIG" [AStr "GET"; AStr "maxmemory"] (c, w) = Done r0 st ->
  exists r, GetMaxMemory (c, w) = Done r st.
Proof.
  intros Hcmd. unfold GetMaxMemory. rewrite (bind_Done _ _ _ _ _ Hcmd).
  destruct r0 as [reply|e]; [|by eauto].
  destruct (redis_Values reply None) as [[|p0 [|p1 [|? ?]]]|]; try by eauto.
  destruct (redis_Int p1 None) as [v|]; [|by eauto].
  destruct (decide (v <> 0)); by eauto.
Qed.

(** C10. An error that comes after the reply was received does not poison
    the client: when the send of SlotsInfo, SlotsMgrtTagSlot or GetMaxMemory
    succeeded on a healthy client and the method still returns an error
    (the reply does not decode, or the migration status is not 0), the
    client has no recorded error afterwards, the predicate of any pool
    accepts it exactly when its timing allows, and the next command goes
    out on the wire. *)
Theorem reply_errors_do_not_poison c w :
  LastErr c = None ->
  (forall reply e c' w',
      conn_Do w (conn c) "SLOTSINFO" [] = Ok reply ->
      SlotsInfo (c, w) = Done (Err e) (c', w') ->
      usable c' w') /\
  (forall host port slotId reply e c' w',
      conn_Do w (conn c) "SLOTSMGRTTAGSLOT"
              [AStr host; AStr port; AInt (30 * 1000); AInt slotId]
      = Ok reply ->
      SlotsMgrtTagSlot host port slotId (c, w) = Done (Err e) (c', w') ->
      usable c' w') /\
  (forall reply e c' w',
      conn_Do w (conn c) "CONFIG" [AStr "GET"; AStr "maxmemory"] = Ok reply ->
      GetMaxMemory (c, w) = Done (Err e) (c', w') ->
      usable c' w').
Proof.
  intros Hc. split_and!.
  - intros reply e c' w' Hdo Hrun.
    destruct (SlotsInfo_state c w _ _ (command_sent _ _ c w reply Hc Hdo))
      as [r Hr].
    rewrite Hr in Hrun. injection Hrun as _ <- <-. by apply usable_intro.
  - intros host port slotId reply e c' w' Hdo Hrun.
    destruct (SlotsMgrtTagSlot_state host port slotId c w _ _
                (command_sent _ _ c w reply Hc Hdo)) as [r Hr].
    rewrite Hr in Hrun. injection Hrun as _ <- <-. by apply usable_intro.
  - intros reply e c' w' Hdo Hrun.
    destruct (GetMaxMemory_state c w _ _ (command_sent _ _ c w reply Hc Hdo))
      as [r Hr].
    rewrite Hr in Hrun. injection Hrun as _ <- <-. by apply usable_intro.
Qed.

(** ** The memory ceiling *)

Lemma digits2_pos_size m : digits2_pos m = Pos.size m.
Proof. induction m; simpl; congruence. Qed.

Lemma iter_xO_value m k : Z.pos (Pos.iter xO m k) = Z.pos m * 2 ^ Z.pos k.
Proof.
  revert m. induction k as [|k IH] using Pos.peano_ind; intros m.
  - simpl. lia.
  - rewrite Pos.iter_succ, Pos2Z.inj_xO, IH.
    rewrite Pos2Z.inj_succ, Z.pow_succ_r by lia. lia.
Qed.

Lemma iter_xO_size m k :
  digits2_pos (Pos.iter xO m k) = (digits2_pos m + k)%positive.
Proof.
  induction k as [|k IH] using Pos.peano_ind.
  - simpl. lia.
  - rewrite Pos.iter_succ. simpl. rewrite IH. lia.
Qed.

Lemma size_53 m : Z.pos m < 2 ^ 53 -> Z.pos (Pos.size m) <= 53.
Proof.
  intros Hm.
  destruct (Z_le_gt_dec (Z.pos (Pos.size m)) 53) as [|Hgt]; [done|].
  exfalso.
  pose proof (Pos.size_le m) as Hle.
  assert (2 ^ 54 <= 2 ^ Z.pos (Pos.size m))
    by (apply Z.pow_le_mono_r; lia).
  assert (Z.pos (2 ^ Pos.size m) = 2 ^ Z.pos (Pos.size m))
    by (by rewrite Pos2Z.inj_pow).
  assert (Z.pos (2 ^ Pos.size m) <= Z.pos m~0)
    by (apply Pos2Z.pos_le_pos; exact Hle).
  change (2 ^ 54) with (2 * 2 ^ 53) in *. lia.
Qed.

(** The conversion of an integer below 2^53 loses nothing. *)
Lemma float64_of_int_small v :
  0 < v < 2 ^ 53 -> float64_holds (float64_of_int v) v = true.
Proof.
  intros [Hpos Hlt]. destruct v as [|m|m]; try lia.
  unfold float64_of_int, binary_normalize, binary_round.
  rewrite digits2_pos_size.
  pose proof (size_53 m Hlt) as Hd.
  set (d := Pos.size m) in *.
  assert (Hf : fexp 53 1024 (Z.pos d + 0) = Z.pos d - 53)
    by (unfold fexp, emin; lia).
  rewrite Hf. unfold shl_align.
  destruct (Z.pos d - 53 - 0) as [|k|k] eqn:Hk; try lia.
  - unfold binary_round_aux, shr_fexp. cbn [Zdigits2 shr_record_of_loc].
    rewrite digits2_pos_size. fold d.
    replace (fexp 53 1024 (Z.pos d + 0) - 0) with 0
      by (unfold fexp, emin; lia).
    cbn [shr shr_m loc_of_shr_record round_nearest_even Zdigits2].
    rewrite digits2_pos_size. fold d.
    replace (fexp 53 1024 (Z.pos d + 0) - 0) with 0
      by (unfold fexp, emin; lia).
    cbn. apply Z.eqb_eq. lia.
  - unfold binary_round_aux, shr_fexp. cbn [Zdigits2 shr_record_of_loc].
    rewrite iter_xO_size, digits2_pos_size. fold d.
    replace (fexp 53 1024 (Z.pos (d + k) + (Z.pos d - 53)) - (Z.pos d - 53))
      with 0 by (unfold fexp, emin; lia).
    cbn [shr shr_m loc_of_shr_record round_nearest_even Zdigits2].
    rewrite iter_xO_size, digits2_pos_size. fold d.
    replace (fexp 53 1024 (Z.pos (d + k) + (Z.pos d - 53)) - (Z.pos d - 53))
      with 0 by (unfold fexp, emin; lia).
    cbn [shr shr_m].
    replace (Z.pos d - 53 <=? 1024 - 53) with true
      by (symmetry; apply Z.leb_le; lia).
    unfold float64_holds.
    replace (0 <=? Z.pos d - 53) with false
      by (symmetry; apply Z.leb_gt; lia).
    apply Z.eqb_eq. rewrite iter_xO_value. f_equal. f_equal. lia.
Qed.

Lemma float64_of_int_exact v :
  0 < v <= 2 ^ 53 -> float64_holds (float64_of_int v) v = true.
Proof.
  intros [Hpos Hle]. destruct (decide (v = 2 ^ 53)) as [->|Hne].
  - by vm_compute.
  - apply float64_of_int_small. lia.
Qed.

(** C8, as amended. When the reply to the maxmemory query decodes to the
    raw value [v]: a raw 0 gives positive infinity, which is not zero; a
    raw value other than 0 gives [float64(v)], the float nearest to it;
    and for 0 < v <= 2^53 that float holds exactly [v]. *)
Theorem GetMaxMemory_decoded c w reply p0 p1 v :
  LastErr c = None ->
  conn_Do w (conn c) "CONFIG" [AStr "GET"; AStr "maxmemory"] = Ok reply ->
  redis_Values reply None = Ok [p0; p1] ->
  redis_Int p1 None = Ok v ->
  exists f,
    GetMaxMemory (c, w)
    = Done (Ok f)
           (set_LastUse (current w) c,
            tick (emit (EvDo (conn c) "CONFIG"
                             [AStr "GET"; AStr "maxmemory"]) w)) /\
    (v = 0 -> f = S754_infinity false /\ float64_is_zero f = false) /\
    (v <> 0 -> f = float64_of_int v) /\
    (0 < v <= 2 ^ 53 -> float64_holds f v = true).
Proof.
  intros Hc Hdo Hvals Hint. unfold GetMaxMemory.
  rewrite (bind_Done _ _ _ _ _ (command_sent _ _ c w reply Hc Hdo)).
  rewrite Hvals, Hint.
  destruct (decide (v <> 0)) as [Hv|Hv].
  - eexists. split; [reflexivity|]. split_and!; [done|done|].
    intros Hr. by apply float64_of_int_exact.
  - assert (v = 0) as -> by lia.
    eexists. split; [reflexivity|]. split_and!; [done|done|lia].
Qed.

(** ** Replication control *)

Lemma GetInfo_state c w :
  exists r0 r st,
    command "INFO" [] (c, w) = Done r0 st /\ GetInfo (c, w) = Done r st.
Proof.
  destruct (command_total "INFO" [] c w) as (r0 & c' & w' & Hcmd & _).
  unfold GetInfo. rewrite (bind_Done _ _ _ _ _ Hcmd).
  destruct r0 as [reply|e]; [|by eauto 10].
  destruct (redis_String reply None); by eauto 10.
Qed.

(** The master lookup returns, and sends the INFO command at most. *)
Lemma GetMaster_total c w :
  exists r c1 w1,
    GetMaster (c, w) = Done r (c1, w1) /\
    conn c1 = conn c /\
    (wire w1 = wire w \/ wire w1 = wire w ++ [EvDo (conn c) "INFO" []]).
Proof.
  destruct (GetInfo_state c w) as (r0 & r & st & Hcmd & Hinfo).
  destruct (command_total "INFO" [] c w) as (r0' & c' & w' & Hcmd' & ? & ?).
  rewrite Hcmd in Hcmd'. injection Hcmd' as _ ->.
  unfold GetMaster. rewrite (bind_Done _ _ _ _ _ Hinfo).
  destruct r as [info|e]; [|by eauto 10].
  destruct (decide (_ /\ _)); by eauto 10.
Qed.

(** C7. The cases of SlaveOf, in the order the code takes them.  A master
    equal to the address of the client is refused before anything is sent.
    Otherwise an empty master issues the detach command without any query
    before it.  Otherwise the current master is looked up first (INFO is
    the only command that lookup sends): when it equals the target the call
    succeeds in the state the lookup left, so no attach command went out;
    when it differs, the target is split into host and port and the attach
    command is issued (a target that does not split is an error, as is a
    failed lookup). *)
Theorem SlaveOf_cases master c w :
  (master = addr c ->
   SlaveOf master (c, w)
   = Done (Some (Errorf "can not slave of itself" [])) (c, w)) /\
  (master <> addr c -> master = "" ->
   exists r st,
     command "SLAVEOF" [AStr "NO"; AStr "ONE"] (c, w) = Done r st /\
     SlaveOf master (c, w)
     = Done (match r with Err e => Some e | Ok _ => None end) st /\
     (LastErr c = None ->
      wire st.2
      = wire w ++ [EvDo (conn c) "SLAVEOF" [AStr "NO"; AStr "ONE"]])) /\
  (master <> addr c -> master <> "" ->
   exists r c1 w1,
     GetMaster (c, w) = Done r (c1, w1) /\
     (wire w1 = wire w \/ wire w1 = wire w ++ [EvDo (conn c) "INFO" []]) /\
     match r with
     | Err e => SlaveOf master (c, w) = Done (Some e) (c1, w1)
     | Ok m =>
       (m = master -> SlaveOf master (c, w) = Done None (c1, w1)) /\
       (m <> master ->
        match net_SplitHostPort master with
        | Err e => SlaveOf master (c, w) = Done (Some (Trace e)) (c1, w1)
        | Ok (host, port) =>
          exists r2 st2,
            command "SLAVEOF" [AStr host; AStr port]
                    (c1, emit (EvWarnf "redis set slaveof [M] %s <---> %s [S]"
                                       [FStr master; FStr (addr c)]) w1)
            = Done r2 st2 /\
            SlaveOf master (c, w)
            = Done (match r2 with Err e => Some e | Ok _ => None end) st2
        end)
     end).
Proof.
  split_and!.
  - intros Hself. unfold SlaveOf. by destruct (decide (master = addr c)).
  - intros Hself Hempty. unfold SlaveOf.
    destruct (decide (master = addr c)); [done|].
    destruct (decide (master = "")); [|done].
    destruct (command_total "SLAVEOF" [AStr "NO"; AStr "ONE"] c w)
      as (r & c' & w' & Hcmd & _).
    exists r, (c', w'). split; [done|]. split.
    + rewrite (bind_Done _ _ _ _ _ Hcmd). by destruct r.
    + intros Hc. unfold command in Hcmd. rewrite Hc in Hcmd.
      destruct (conn_Do w (conn c) "SLAVEOF" [AStr "NO"; AStr "ONE"]);
        by injection Hcmd as _ _ <-.
  - intros Hself Hempty. unfold SlaveOf.
    destruct (decide (master = addr c)); [done|].
    destruct (decide (master = "")); [done|].
    destruct (GetMaster_total c w) as (r & c1 & w1 & Hget & _ & Hwire).
    exists r, c1, w1. split; [done|]. split; [done|].
    rewrite (bind_Done _ _ _ _ _ Hget).
    destruct r as [m|e]; [|done]. split.
    + intros Hm. by destruct (decide (m = master)).
    + intros Hm. destruct (decide (m = master)); [done|].
      destruct (net_SplitHostPort master) as [[host port]|e]; [|done].
      set (w2 := emit _ w1).
      destruct (command_total "SLAVEOF" [AStr host; AStr port] c1 w2)
        as (r2 & c2 & w3 & Hcmd & _).
      exists r2, (c2, w3). split; [done|].
      unfold mbind at 1, St_mbind, St_bind. cbn [inWorld]. fold w2.
      rewrite (bind_Done _ _ _ _ _ Hcmd). by destruct r2.
Qed.

End Client_facts.

Lemma command_poisoned_forever_witness :
  @commands Demo.platform [("PING", []); ("INFO", [])] (Demo.c1, Demo.w0)
  = Done [Err ErrFailedRedisClient; Err ErrFailedRedisClient]
         (Demo.c1, Demo.w0).
Proof.
  exact (@command_poisoned_forever Demo.platform
           [("PING", []); ("INFO", [])] Demo.c1 Demo.w0
           (Trace (Foreign "broken pipe")) eq_refl).
Defined.

(** The reply (0, 17) for shard 5 gives 17 keys moved and no error. *)
Lemma SlotsMgrtTagSlot_reply_witness :
  exists st,
    @SlotsMgrtTagSlot Demo.platform "10.0.0.2" "6379" 5 (Demo.c0, Demo.w0)
    = Done (Ok 17) st.
Proof.
  eexists.
  exact (proj1 (@SlotsMgrtTagSlot_reply Demo.platform "10.0.0.2" "6379" 5
                  Demo.c0 Demo.w0 (RArray [RInt 0; RInt 17]) eq_refl eq_refl)
               17 eq_refl).
Defined.

(** The reply (1, 0) for shard 5 gives the failure that names shard 5. *)
Example SlotsMgrtTagSlot_status_1 :
  exists st,
    @SlotsMgrtTagSlot Demo.platform "10.0.0.3" "6379" 5 (Demo.c0, Demo.w0)
    = Done (Err (Errorf "migrate slot-%04d failed, response = %v"
                        [FInt 5; FReply (RArray [RInt 1; RInt 0])])) st.
Proof. eexists. reflexivity. Qed.

(** SlotsInfo on a reply whose first entry has three integers: the method
    fails, the client stays usable. *)
Lemma reply_errors_do_not_poison_witness :
  exists c' w',
    @SlotsInfo Demo.platform (Demo.c0, Demo.w0)
    = Done (Err (Errorf "invalid response[%d] = %v"
                        [FInt 0; FReply (RArray [RInt 1; RInt 2; RInt 3])]))
           (c', w') /\
    @usable Demo.platform c' w'.
Proof.
  eexists _, _. split; [by vm_compute|].
  refine (proj1 (@reply_errors_do_not_poison Demo.platform Demo.c0 Demo.w0
                   eq_refl)
                (RArray [RArray [RInt 1; RInt 2; RInt 3]]) _ _ _ eq_refl _).
  by vm_compute.
Defined.

(** C8, as it was stated, fails on a 64-bit [int]: the raw value 2^53 + 1
    comes back as the float 2^53. *)
Lemma GetMaxMemory_rounds :
  @conn_Do Demo.platform Demo.w0 0%nat "CONFIG" [AStr "GET"; AStr "maxmemory"]
  = Ok (RArray [RBulk "maxmemory"; RBulk "9007199254740993"]) /\
  @redis_Int Demo.platform (RBulk "9007199254740993") None
  = Ok 9007199254740993 /\
  exists f st,
    @GetMaxMemory Demo.platform (Demo.c0, Demo.w0) = Done (Ok f) st /\
    float64_holds f 9007199254740993 = false /\
    float64_holds f 9007199254740992 = true.
Proof.
  split; [reflexivity|]. split; [by vm_compute|].
  eexists _, _. by vm_compute.
Qed.

Lemma GetMaxMemory_decoded_witness :
  exists f st,
    @GetMaxMemory Demo.platform (Demo.c0, Demo.w0) = Done (Ok f) st /\
    f = float64_of_int 9007199254740993.
Proof.
  assert (Hint : @redis_Int Demo.platform (RBulk "9007199254740993") None
                 = Ok 9007199254740993) by (by vm_compute).
  destruct (@GetMaxMemory_decoded Demo.platform Demo.c0 Demo.w0
              (RArray [RBulk "maxmemory"; RBulk "9007199254740993"])
              (RBulk "maxmemory") (RBulk "9007199254740993") 9007199254740993
              eq_refl eq_refl eq_refl Hint) as (f & Hrun & _ & Hf & _).
  exists f. eexists. split; [exact Hrun|]. by apply Hf.
Defined.

(** An unbounded node: the raw value 0 comes back as positive infinity. *)
Example GetMaxMemory_unbounded :
  exists st,
    @GetMaxMemory Demo.platform (Demo.c3, Demo.w0)
    = Done (Ok (S754_infinity false)) st.
Proof. eexists. by vm_compute. Qed.

(** The master lookup on the two INFO texts: a replica names its master,
    a master names none. *)
Example GetMaster_replica :
  exists st,
    @GetMaster Demo.platform (Demo.c0, Demo.w0) = Done (Ok "10.0.0.1:6380") st.
Proof. eexists. by vm_compute. Qed.

Example GetMaster_master :
  exists st, @GetMaster Demo.platform (Demo.c3, Demo.w0) = Done (Ok "") st.
Proof. eexists. by vm_compute. Qed.

(** A second SlaveOf for the master the node already has sends no attach
    command: the lookup is all that goes out. *)
Example SlaveOf_same_master :
  exists c' w',
    @SlaveOf Demo.platform "10.0.0.1:6380" (Demo.c0, Demo.w0)
    = Done None (c', w') /\
    wire w' = [EvDo 0%nat "INFO" []].
Proof. eexists _, _. by vm_compute. Qed.

Example SlaveOf_new_master :
  exists c' w',
    @SlaveOf Demo.platform "10.0.0.2:6379" (Demo.c0, Demo.w0)
    = Done (Some (Trace (Foreign "connection reset by peer"))) (c', w') /\
    wire w'
    = [EvDo 0%nat "INFO" [];
       EvWarnf "redis set slaveof [M] %s <---> %s [S]"
               [FStr "10.0.0.2:6379"; FStr "10.0.0.9:6379"];
       EvDo 0%nat "SLAVEOF" [AStr "10.0.0.2"; AStr "6379"]].
Proof. eexists _, _. by vm_compute. Qed.

Lemma transport_error_poisons_witness :
  exists st,
    @commands Demo.platform [("DEBUG", []); ("PING", [])] (Demo.c0, Demo.w0)
    = Done [Err (Trace (Foreign "connection reset by peer"));
            Err ErrFailedRedisClient] st.
Proof.
  eexists.
  exact (@transport_error_poisons Demo.platform "DEBUG" [] [("PING", [])]
           Demo.c0 Demo.w0 (Foreign "connection reset by peer")
           eq_refl eq_refl).
Defined.

Lemma poisoned_methods_witness :
  @GetMaster Demo.platform (Demo.c1, Demo.w0)
  = Done (Err ErrFailedRedisClient) (Demo.c1, Demo.w0).
Proof.
  exact (proj1 (proj2 (proj2 (proj2
           (@poisoned_methods Demo.platform Demo.c1 Demo.w0
              (Trace (Foreign "broken pipe")) eq_refl))))).
Defined.

Lemma GetMaster_info_witness :
  exists st,
    @GetMaster Demo.platform (Demo.c3, Demo.w0) = Done (Ok "") st.
Proof.
  eexists.
  refine (eq_trans (@GetMaster_info Demo.platform Demo.c3 Demo.w0 _ _ _) _).
  - by vm_compute.
  - by vm_compute.
Defined.

Lemma NewRedisClient_auth_failed_witness :
  exists w',
    @NewRedisClient Demo.platform "10.0.0.7:6379" "secret" 1000 Demo.w0
    = Done (Err (Trace (Foreign "connection reset by peer"))) w'.
Proof.
  assert (Hau : "secret" <> "") by done.
  destruct (@NewRedisClient_auth_failed Demo.platform "10.0.0.7:6379"
              "secret" 1000 Demo.w0 (Foreign "connection reset by peer")
              eq_refl Hau eq_refl) as (w' & Hrun & _).
  exists w'. exact Hrun.
Defined.

(** * The pool *)

Section Pool_facts.
Context `{Platform}.

(** ** The recyclability predicate *)

(** C3. The predicate returns, and says yes exactly when the client has no
    recorded error and either the idle timeout is zero or the last use
    plus half the timeout ([timeout / 2], the division of Go) is strictly
    later than the current time.  So a client with a recorded error is
    never accepted, and with a zero timeout a client without error always
    is. *)
Theorem isRecyclable_iff p c w :
  exists b w',
    isRecyclable p c w = Done b w' /\
    (b = true <->
     LastErr c = None /\
     (timeout p = 0 \/ current w < LastUse c + timeout p `quot` 2)) /\
    (LastErr c <> None -> b = false) /\
    (LastErr c = None -> timeout p = 0 -> b = true).
Proof.
  destruct (isRecyclable_run p c w) as (b & w' & Hrun & Hiff & _).
  exists b, w'. unfold recyclable in Hiff. split_and!; [done|done| |].
  - intros Herr. destruct b; [|done]. by destruct (proj1 Hiff eq_refl).
  - intros Herr Ht. apply Hiff. auto.
Qed.

(** ** Closing connections *)

Lemma Close_loop_run l post w :
  exists w',
    Close_loop (length l) (l ++ post) w = Done post w' /\
    wire w' = wire w ++ closes l /\
    ticks w' = ticks w /\ dialled w' = dialled w.
Proof.
  revert w. induction l as [|c l IH]; intros w.
  - exists w. cbn. by rewrite app_nil_r.
  - destruct (IH (emit (EvClose (conn c)) w)) as (w' & Hrun & Hw & Ht & Hd).
    exists w'. split; [exact Hrun|]. cbn in Hw. split_and!; [|done|done].
    rewrite Hw. cbn. by rewrite <- app_assoc.
Qed.

Lemma Close_range_run order p w :
  exists p' w' evs,
    Close_range order (p, w) = Done tt (p', w') /\
    closed p' = closed p /\ auth p' = auth p /\ timeout p' = timeout p /\
    (forall a, pool p' !! a = if decide (a ∈ order) then None else pool p !! a) /\
    wire w' = wire w ++ evs /\
    ticks w' = ticks w /\ dialled w' = dialled w /\
    (forall a l c,
        a ∈ order -> pool p !! a = Some l -> c ∈ l -> EvClose (conn c) ∈ evs) /\
    Forall (fun ev => exists c, idle p c /\ ev = EvClose (conn c)) evs.
Proof.
  revert p w. induction order as [|addr order IH]; intros p w.
  - exists p, w, []. cbn. rewrite app_nil_r. split_and!; try done.
    intros a l c Ha. set_solver.
  - cbn [Close_range]. destruct (pool p !! addr) as [l|] eqn:Hl.
    + destruct (Close_loop_run l [] w) as (w1 & Hrun & Hw1 & Ht1 & Hd1).
      rewrite app_nil_r in Hrun. rewrite Hrun.
      destruct (IH (set_pool (delete addr (pool p)) p) w1)
        as (p' & w' & evs & Hrange & Hc & Ha & Hto & Hpool & Hw & Ht & Hd
            & Hall & Honly).
      exists p', w', (closes l ++ evs). cbn in Hpool.
      split_and!; try done; try congruence.
      * intros a. rewrite Hpool.
        destruct (decide (a = addr)) as [->|Hne].
        { rewrite lookup_delete_eq. rewrite (decide_True _ _ (list_elem_of_here _ _)).
          by destruct (decide (addr ∈ order)). }
        rewrite lookup_delete_ne by done.
        destruct (decide (a ∈ order)) as [Hin|Hin].
        { by rewrite decide_True by (by apply list_elem_of_further). }
        rewrite decide_False; [done|].
        intros [?|?]%elem_of_cons; done.
      * rewrite Hw, Hw1. by rewrite app_assoc.
      * intros a l0 c Hin Hl0 Hc0. apply elem_of_app.
        destruct (decide (a = addr)) as [->|Hne].
        { left. rewrite Hl in Hl0. injection Hl0 as <-.
          unfold closes. apply list_elem_of_fmap. eauto. }
        right. eapply (Hall a l0 c); [set_solver| |done].
        cbn. by rewrite lookup_delete_ne.
      * apply Forall_app. split.
        { apply Forall_forall. intros ev Hev.
          apply list_elem_of_fmap in Hev as (c & -> & Hc0).
          exists c. split; [|done]. by exists addr, l. }
        eapply Forall_impl; [exact Honly|]. cbn.
        intros ev (c & (a & l0 & Hl0 & Hc0) & ->). exists c. split; [|done].
        exists a, l0. split; [|done]. cbn in Hl0.
        destruct (decide (a = addr)) as [->|Hne].
        { by rewrite lookup_delete_eq in Hl0. }
        by rewrite lookup_delete_ne in Hl0.
    + destruct (IH p w)
        as (p' & w' & evs & Hrange & Hc & Ha & Hto & Hpool & Hw & Ht & Hd
            & Hall & Honly).
      exists p', w', evs. split_and!; try done.
      * intros a. rewrite Hpool.
        destruct (decide (a = addr)) as [->|Hne].
        { rewrite (decide_True _ _ (list_elem_of_here _ _)).
          by destruct (decide (addr ∈ order)). }
        destruct (decide (a ∈ order)) as [Hin|Hin].
        { by rewrite decide_True by (by apply list_elem_of_further). }
        rewrite decide_False; [done|].
        intros [?|?]%elem_of_cons; done.
      * intros a l0 c Hin Hl0 Hc0.
        destruct (decide (a = addr)) as [->|Hne]; [congruence|].
        eapply (Hall a l0 c); [set_solver|done|done].
Qed.

(** Close on a closed pool does nothing. *)
Lemma Close_closed order p w :
  closed p = true -> Close order (p, w) = Done None (p, w).
Proof. intros Hc. unfold Close. by rewrite Hc. Qed.

(** C6. Close returns no error, leaves the pool marked closed and the
    registry empty, and has closed the connection of every client that was
    idle; a second Close, whatever the order it would visit keys in,
    returns no error and changes neither the pool nor the world, so the
    registry is empty after both calls.  The pool is any pool that is open,
    or closed with the empty registry a Close leaves. *)
Theorem Close_idempotent order p w :
  (closed p = true -> pool p = ∅) ->
  (forall a, is_Some (pool p !! a) -> a ∈ order) ->
  exists p1 w1 evs,
    Close order (p, w) = Done None (p1, w1) /\
    closed p1 = true /\
    pool p1 = ∅ /\
    wire w1 = wire w ++ evs /\
    (forall c, idle p c -> EvClose (conn c) ∈ evs) /\
    forall order2, Close order2 (p1, w1) = Done None (p1, w1).
Proof.
  intros Hinv Hcover. destruct (closed p) eqn:Hcl.
  { exists p, w, []. rewrite app_nil_r.
    split_and!; [by apply Close_closed|done|by apply Hinv|done| |].
    - intros c (a & l & Hl & _). by rewrite (Hinv eq_refl) in Hl.
    - intros order2. by apply Close_closed. }
  unfold Close at 1. rewrite Hcl.
  destruct (Close_range_run order (set_closed true p) w)
    as (p1 & w1 & evs & Hrange & Hc & _ & _ & Hpool & Hw & _ & _ & Hall & _).
  exists p1, w1, evs. rewrite (bind_Done _ _ _ _ _ Hrange).
  split_and!; [done|done| |done| |].
  - apply map_eq. intros a. rewrite Hpool, lookup_empty. cbn.
    destruct (decide (a ∈ order)) as [|Hout]; [done|].
    destruct (pool p !! a) eqn:Ha; [|done].
    destruct Hout. apply Hcover. by rewrite Ha.
  - intros c (a & l & Hl & Hin). apply (Hall a l c); [|done|done].
    apply Hcover. by rewrite Hl.
  - intros order2. by apply Close_closed.
Qed.

(** ** A closed pool *)

Lemma GetClient_closed a p w :
  closed p = true -> GetClient a (p, w) = Done (Err ErrClosedRedisPool) (p, w).
Proof. intros Hc. unfold GetClient. by rewrite Hc. Qed.

Lemma Cleanup_closed order p w :
  closed p = true ->
  Cleanup order (p, w) = Done (Some ErrClosedRedisPool) (p, w).
Proof. intros Hc. unfold Cleanup. by rewrite Hc. Qed.

Lemma PutClient_closed client p w :
  closed p = true ->
  PutClient client (p, w) = Done tt (p, emit (EvClose (conn client)) w).
Proof. intros Hc. unfold PutClient. by rewrite Hc. Qed.

(** No call opens a closed pool or changes it. *)
Lemma calls_closed ks p w :
  closed p = true -> exists rs w', calls ks (p, w) = Done rs (p, w').
Proof.
  intros Hc. revert w. induction ks as [|k ks IH]; intros w; [by eauto|].
  cbn [calls].
  assert (exists r w1, call k (p, w) = Done r (p, w1)) as (r & w1 & Hk).
  { destruct k as [a|client|order|order]; cbn [call].
    - rewrite (bind_Done _ _ _ _ _ (GetClient_closed a p w Hc)). by eauto.
    - rewrite (bind_Done _ _ _ _ _ (PutClient_closed client p w Hc)). by eauto.
    - rewrite (bind_Done _ _ _ _ _ (Cleanup_closed order p w Hc)). by eauto.
    - rewrite (bind_Done _ _ _ _ _ (Close_closed order p w Hc)). by eauto. }
  destruct (IH w1) as (rs & w' & Hks).
  rewrite (bind_Done _ _ _ _ _ Hk), (bind_Done _ _ _ _ _ Hks). by eauto.
Qed.

(** C2, as amended. Close returns, and from then on, whatever calls were
    made in between, GetClient and Cleanup fail with [ErrClosedRedisPool]
    and change nothing, while PutClient, which has no result, closes the
    connection of the client it is given and leaves the pool as it is. *)
Theorem after_Close order p w :
  exists p1 w1,
    Close order (p, w) = Done None (p1, w1) /\
    closed p1 = true /\
    forall ks, exists rs w2,
      calls ks (p1, w1) = Done rs (p1, w2) /\
      (forall a,
          GetClient a (p1, w2) = Done (Err ErrClosedRedisPool) (p1, w2)) /\
      (forall order',
          Cleanup order' (p1, w2)
          = Done (Some ErrClosedRedisPool) (p1, w2)) /\
      (forall client,
          PutClient client (p1, w2)
          = Done tt (p1, emit (EvClose (conn client)) w2)).
Proof.
  assert (exists p1 w1,
             Close order (p, w) = Done None (p1, w1) /\ closed p1 = true)
    as (p1 & w1 & Hclose & Hc).
  { destruct (closed p) eqn:Hcl.
    - exists p, w. by rewrite Close_closed.
    - unfold Close. rewrite Hcl.
      destruct (Close_range_run order (set_closed true p) w)
        as (p1 & w1 & evs & Hrange & Hc & _).
      rewrite (bind_Done _ _ _ _ _ Hrange). by eauto. }
  exists p1, w1. split_and!; [done|done|].
  intros ks. destruct (calls_closed ks p1 w1 Hc) as (rs & w2 & Hks).
  exists rs, w2. split_and!; [done| | |].
  - intros a. by apply GetClient_closed.
  - intros order'. by apply Cleanup_closed.
  - intros client. by apply PutClient_closed.
Qed.

(** ** Cleanup *)

Lemma accepted_wider t n0 n1 m0 m1 c :
  (m0 <= n0)%nat -> (n1 <= m1)%nat ->
  accepted t n0 n1 c -> accepted t m0 m1 c.
Proof.
  intros H0 H1 [Herr [Ht|(n & Hn & Hlt)]]; split; auto.
  right. exists n. split; [lia|done].
Qed.

Lemma rejected_wider t n0 n1 m0 m1 c :
  (m0 <= n0)%nat -> (n1 <= m1)%nat ->
  rejected t n0 n1 c -> rejected t m0 m1 c.
Proof.
  intros H0 H1 [Herr|[Ht (n & Hn & Hlt)]]; [by left|].
  right. split; [done|]. exists n. split; [lia|done].
Qed.

(** What [sweep] does to a list. *)
Lemma sweep_run p l w :
  exists kept dropped w',
    sweep p l w = Done kept w' /\
    splits l kept dropped /\
    Forall (accepted (timeout p) (ticks w) (ticks w')) kept /\
    Forall (rejected (timeout p) (ticks w) (ticks w')) dropped /\
    wire w' = wire w ++ closes dropped /\
    (ticks w <= ticks w')%nat /\ dialled w' = dialled w.
Proof.
  revert w. induction l as [|c l IH]; intros w.
  - exists [], [], w. cbn. rewrite app_nil_r.
    split_and!; try done; constructor.
  - cbn [sweep].
    destruct (isRecyclable_run p c w)
      as (b & w1 & Hrun & _ & Hw1 & Hd1 & Ht1 & Hacc & Hrej).
    rewrite (bind_Done _ _ _ _ _ Hrun). destruct b.
    + destruct (IH w1) as (kept & dropped & w' & Hs & Hsp & Hk & Hdr & Hw & Ht & Hd).
      rewrite (bind_Done _ _ _ _ _ Hs).
      exists (c :: kept), dropped, w'. split_and!; try done.
      * by constructor.
      * constructor.
        { eapply accepted_wider; [| |by apply Hacc]; lia. }
        eapply Forall_impl; [exact Hk|]. intros x.
        apply accepted_wider; lia.
      * eapply Forall_impl; [exact Hdr|]. intros x.
        apply rejected_wider; lia.
      * congruence.
      * lia.
      * congruence.
    + unfold mbind at 1, St_mbind, St_bind. cbn [RedisClient_Close].
      destruct (IH (emit (EvClose (conn c)) w1))
        as (kept & dropped & w' & Hs & Hsp & Hk & Hdr & Hw & Ht & Hd).
      cbn in Hw, Ht, Hd. cbn [emit ticks] in Hk, Hdr.
      exists kept, (c :: dropped), w'. split_and!; try done.
      * by constructor.
      * eapply Forall_impl; [exact Hk|]. intros x.
        apply accepted_wider; lia.
      * constructor.
        { eapply rejected_wider; [| |by apply Hrej]; lia. }
        eapply Forall_impl; [exact Hdr|]. intros x.
        apply rejected_wider; lia.
      * rewrite Hw, Hw1. cbn. by rewrite <- app_assoc.
      * lia.
      * congruence.
Qed.

(** The loop of Cleanup rotates the list once and is [sweep]. *)
Lemma Cleanup_loop_sweep p pre post w kept w' :
  sweep p pre w = Done kept w' ->
  Cleanup_loop p (length pre) (pre ++ post) w = Done (post ++ kept) w'.
Proof.
  revert post w kept. induction pre as [|c pre IH]; intros post w kept Hs.
  - injection Hs as <- <-. cbn. by rewrite app_nil_r.
  - cbn [sweep] in Hs. cbn [length app Cleanup_loop Remove_Front].
    rewrite (bind_Done (Remove_Front (c :: pre ++ post)) _ w _ _ eq_refl).
    destruct (isRecyclable_run p c w) as (b & w1 & Hrun & _).
    rewrite (bind_Done _ _ _ _ _ Hrun) in Hs.
    rewrite (bind_Done _ _ _ _ _ Hrun).
    destruct b.
    + destruct (sweep p pre w1) as [kept1 w2|] eqn:Hs1.
      * rewrite (bind_Done _ _ _ _ _ Hs1) in Hs. injection Hs as <- <-.
        rewrite <- app_assoc. rewrite (IH _ _ _ Hs1).
        by rewrite <- app_assoc.
      * by rewrite (bind_Panic _ _ _ Hs1) in Hs.
    + rewrite (bind_Done (RedisClient_Close c) _ w1 _ _ eq_refl) in Hs.
      rewrite (bind_Done (RedisClient_Close c) _ w1 _ _ eq_refl).
      by apply IH.
Qed.

Lemma Cleanup_loop_run p l w :
  Cleanup_loop p (length l) l w = sweep p l w.
Proof.
  destruct (sweep_run p l w) as (kept & dropped & w' & Hs & _).
  rewrite Hs. pose proof (Cleanup_loop_sweep p l [] w kept w' Hs) as Hloop.
  by rewrite app_nil_r in Hloop.
Qed.

Lemma splits_elem {A} (l k d : list A) x :
  splits l k d -> (x ∈ k \/ x ∈ d) -> x ∈ l.
Proof.
  induction 1 as [|y l k d _ IH|y l k d _ IH]; intros Hx.
  - destruct Hx as [Hx|Hx]; by apply elem_of_nil in Hx.
  - destruct Hx as [Hx|Hx].
    + apply elem_of_cons in Hx as [->|Hx]; [apply list_elem_of_here|].
      apply list_elem_of_further. auto.
    + apply list_elem_of_further. auto.
  - destruct Hx as [Hx|Hx].
    + apply list_elem_of_further. auto.
    + apply elem_of_cons in Hx as [->|Hx]; [apply list_elem_of_here|].
      apply list_elem_of_further. auto.
Qed.

(** The entry of an address after its list was swept. *)
Lemma swept_entry (m : gmap string (list RedisClient)) addr l a :
  (if decide (length l = 0%nat) then delete addr m else <[addr := l]> m) !! a
  = if decide (a = addr) then pruned l else m !! a.
Proof.
  destruct (decide (a = addr)) as [->|Hne].
  - destruct (decide (length l = 0%nat)) as [Hz|Hz].
    + rewrite lookup_delete_eq. by destruct l.
    + rewrite lookup_insert_eq. by destruct l.
  - destruct (decide (length l = 0%nat)).
    + by rewrite lookup_delete_ne.
    + by rewrite lookup_insert_ne.
Qed.

Lemma Cleanup_range_run order :
  NoDup order ->
  forall p w,
  exists p' w' evs (kept dropped : string -> list RedisClient),
    Cleanup_range order (p, w) = Done tt (p', w') /\
    closed p' = closed p /\ auth p' = auth p /\ timeout p' = timeout p /\
    wire w' = wire w ++ evs /\
    (ticks w <= ticks w')%nat /\ dialled w' = dialled w /\
    (forall a, a ∉ order -> pool p' !! a = pool p !! a) /\
    (forall a, pool p !! a = None -> pool p' !! a = None) /\
    (forall a l,
        a ∈ order -> pool p !! a = Some l ->
        splits l (kept a) (dropped a) /\
        Forall (accepted (timeout p) (ticks w) (ticks w')) (kept a) /\
        Forall (rejected (timeout p) (ticks w) (ticks w')) (dropped a) /\
        pool p' !! a = pruned (kept a) /\
        Forall (fun d => EvClose (conn d) ∈ evs) (dropped a)) /\
    Forall (fun ev => exists a d,
                a ∈ order /\ is_Some (pool p !! a) /\ d ∈ dropped a /\
                ev = EvClose (conn d)) evs.
Proof.
  induction 1 as [|addr order Hfresh Hnodup IH]; intros p w.
  - exists p, w, [], (fun _ => []), (fun _ => []). cbn. rewrite app_nil_r.
    split_and!; try done.
    intros a l Ha. by apply elem_of_nil in Ha.
  - cbn [Cleanup_range]. destruct (pool p !! addr) as [l|] eqn:Hl.
    + rewrite Cleanup_loop_run.
      destruct (sweep_run p l w)
        as (kl & dl & w1 & Hs & Hsp & Hk & Hdr & Hw1 & Ht1 & Hd1).
      rewrite Hs.
      set (m1 := if decide (length kl = 0%nat) then delete addr (pool p)
                 else <[addr := kl]> (pool p)).
      assert (Hm1 : forall a, m1 !! a
                = if decide (a = addr) then pruned kl else pool p !! a)
        by (intros a; apply swept_entry).
      destruct (IH (set_pool m1 p) w1)
        as (p' & w' & evs & kept & dropped & Hrange & Hc & Ha & Hto & Hw & Ht
            & Hd & Hout & Hnone & Hin & Honly).
      cbn [set_pool closed auth timeout pool] in *.
      exists p', w', (closes dl ++ evs),
        (fun a => if decide (a = addr) then kl else kept a),
        (fun a => if decide (a = addr) then dl else dropped a).
      split.
      { unfold m1 in Hrange. by destruct (decide (length kl = 0%nat)). }
      split_and!; try done.
      * rewrite Hw, Hw1. by rewrite app_assoc.
      * lia.
      * congruence.
      * intros a Ha'. apply not_elem_of_cons in Ha' as [Hne Ha'].
        rewrite (Hout a Ha'), Hm1. by rewrite decide_False.
      * intros a Ha'. apply Hnone. rewrite Hm1.
        destruct (decide (a = addr)) as [->|]; [congruence|done].
      * intros a l0 Ha' Hl0. destruct (decide (a = addr)) as [->|Hne].
        { rewrite Hl in Hl0. injection Hl0 as <-. split_and!.
          - done.
          - eapply Forall_impl; [exact Hk|]. intros x.
            apply accepted_wider; lia.
          - eapply Forall_impl; [exact Hdr|]. intros x.
            apply rejected_wider; lia.
          - rewrite (Hout addr Hfresh), Hm1. by rewrite decide_True.
          - apply Forall_forall. intros d Hdin. apply elem_of_app. left.
            unfold closes. apply list_elem_of_fmap. eauto. }
        apply elem_of_cons in Ha' as [?|Ha']; [done|].
        assert (Hl1 : m1 !! a = Some l0)
          by (rewrite Hm1; by rewrite decide_False).
        destruct (Hin a l0 Ha' Hl1) as (Hsp' & Hk' & Hdr' & Hp' & Hcl').
        split_and!; try done.
        { eapply Forall_impl; [exact Hk'|]. intros x.
          apply accepted_wider; lia. }
        { eapply Forall_impl; [exact Hdr'|]. intros x.
          apply rejected_wider; lia. }
        eapply Forall_impl; [exact Hcl'|]. intros x Hx.
        apply elem_of_app. by right.
      * apply Forall_app. split.
        { apply Forall_forall. intros ev Hev.
          apply list_elem_of_fmap in Hev as (d & -> & Hdin).
          exists addr, d. rewrite decide_True by done.
          split_and!; [apply list_elem_of_here|by rewrite Hl|done|done]. }
        eapply Forall_impl; [exact Honly|]. cbn.
        intros ev (a & d & Ha' & Hsome & Hdin & ->).
        assert (a <> addr) as Hne by (intros ->; done).
        exists a, d. rewrite decide_False by done.
        split_and!; [by apply list_elem_of_further| |done|done].
        rewrite Hm1 in Hsome. by rewrite decide_False in Hsome.
    + destruct (IH p w)
        as (p' & w' & evs & kept & dropped & Hrange & Hc & Ha & Hto & Hw & Ht
            & Hd & Hout & Hnone & Hin & Honly).
      exists p', w', evs, kept, dropped. split_and!; try done.
      * intros a Ha'. apply not_elem_of_cons in Ha' as [Hne Ha']. auto.
      * intros a l0 Ha' Hl0.
        apply elem_of_cons in Ha' as [->|Ha']; [congruence|]. auto.
      * eapply Forall_impl; [exact Honly|]. cbn.
        intros ev (a & d & Ha' & Hsome & Hdin & ->).
        exists a, d. split_and!; [by apply list_elem_of_further|done..].
Qed.

(** C5. On a closed pool Cleanup fails with [ErrClosedRedisPool].  On an
    open pool it returns no error and treats every address: the idle list
    splits, order kept on both sides, into the members the predicate
    accepted and those it rejected, each judged at a reading of the clock
    taken during the call (or without the clock, when the verdict does not
    depend on it); the registry holds the accepted ones afterwards, or no
    entry at all when there is none; the connection of every rejected
    member is closed, and nothing else is. *)
Theorem Cleanup_keeps_recyclable order p w :
  enumerates order p ->
  (closed p = true ->
   Cleanup order (p, w) = Done (Some ErrClosedRedisPool) (p, w)) /\
  (closed p = false ->
   exists p' w' evs (kept dropped : string -> list RedisClient),
     Cleanup order (p, w) = Done None (p', w') /\
     closed p' = false /\ auth p' = auth p /\ timeout p' = timeout p /\
     wire w' = wire w ++ evs /\
     (forall a, pool p !! a = None -> pool p' !! a = None) /\
     (forall a l,
         pool p !! a = Some l ->
         splits l (kept a) (dropped a) /\
         Forall (accepted (timeout p) (ticks w) (ticks w')) (kept a) /\
         Forall (rejected (timeout p) (ticks w) (ticks w')) (dropped a) /\
         pool p' !! a = pruned (kept a) /\
         Forall (fun d => EvClose (conn d) ∈ evs) (dropped a)) /\
     Forall (fun ev => exists a d,
                 is_Some (pool p !! a) /\ d ∈ dropped a /\
                 ev = EvClose (conn d)) evs).
Proof.
  intros [Hnodup Hkeys]. split; [by apply Cleanup_closed|].
  intros Hopen. unfold Cleanup. rewrite Hopen.
  destruct (Cleanup_range_run order Hnodup p w)
    as (p' & w' & evs & kept & dropped & Hrange & Hc & Ha & Hto & Hw & Ht
        & Hd & Hout & Hnone & Hin & Honly).
  exists p', w', evs, kept, dropped. rewrite (bind_Done _ _ _ _ _ Hrange).
  split_and!; try done; try congruence.
  - intros a l Hl. apply Hin; [|done]. apply Hkeys. by rewrite Hl.
  - eapply Forall_impl; [exact Honly|]. cbn.
    intros ev (a & d & _ & ? & ? & ?). eauto.
Qed.

(** ** GetClient *)

Lemma GetClient_loop_run p l w :
  exists discarded found rest w',
    GetClient_loop p (length l) l w = Done (found, rest) w' /\
    Forall (rejected (timeout p) (ticks w) (ticks w')) discarded /\
    wire w' = wire w ++ closes discarded /\
    (ticks w <= ticks w')%nat /\ dialled w' = dialled w /\
    match found with
    | Some c =>
      l = discarded ++ c :: rest /\
      accepted (timeout p) (ticks w) (ticks w') c
    | None => l = discarded /\ rest = []
    end.
Proof.
  revert w. induction l as [|c l IH]; intros w.
  - exists [], None, [], w. cbn. rewrite app_nil_r. by split_and!.
  - cbn [length GetClient_loop].
    rewrite (bind_Done (Remove_Front (c :: l)) _ w _ _ eq_refl).
    destruct (isRecyclable_run p c w)
      as (b & w1 & Hrun & _ & Hw1 & Hd1 & Ht1 & Hacc & Hrej).
    rewrite (bind_Done _ _ _ _ _ Hrun). destruct b.
    + exists [], (Some c), l, w1. cbn. rewrite app_nil_r.
      split_and!; try done; try lia. by apply Hacc.
    + rewrite (bind_Done (RedisClient_Close c) _ w1 _ _ eq_refl).
      destruct (IH (emit (EvClose (conn c)) w1))
        as (discarded & found & rest & w' & Hloop & Hdis & Hw & Ht & Hd & Hf).
      cbn [emit ticks wire dialled] in *.
      exists (c :: discarded), found, rest, w'. split_and!; try done.
      * constructor.
        { eapply rejected_wider; [| |by apply Hrej]; lia. }
        eapply Forall_impl; [exact Hdis|]. intros x.
        apply rejected_wider; lia.
      * rewrite Hw, Hw1. cbn. by rewrite <- app_assoc.
      * lia.
      * congruence.
      * destruct found as [c'|].
        { destruct Hf as [-> Hc']. split; [done|].
          eapply accepted_wider; [| |exact Hc']; lia. }
        by destruct Hf as [-> ->].
Qed.

(** A dial gives a connection that was not there before. *)
Lemma NewRedisClient_run a au t w :
  exists r w' evs,
    NewRedisClient a au t w = Done r w' /\
    wire w' = wire w ++ EvDial a t :: evs /\
    (ticks w <= ticks w')%nat /\
    (dialled w <= dialled w')%nat /\
    (forall c, r = Ok c ->
               conn c = dialled w /\ addr c = a /\ LastErr c = None /\
               dialled w' = S (dialled w)).
Proof.
  unfold NewRedisClient. destruct (dial w a t) as [err|].
  { exists (Err (Trace err)), (emit (EvDial a t) w), []. by split_and!. }
  destruct (decide (au <> "")).
  - destruct (conn_Do _ _ _ _) as [reply|err].
    + eexists _, _, [_]. split; [reflexivity|]. cbn.
      split_and!; [by rewrite <- app_assoc|lia|lia|].
      by intros c [= <-].
    + eexists _, _, [_; _]. split; [reflexivity|]. cbn.
      split_and!; [by rewrite <- !app_assoc|lia|lia|done].
  - eexists _, _, []. split; [reflexivity|]. cbn.
    split_and!; [done|lia|lia|]. by intros c [= <-].
Qed.

(** What GetClient does on an open pool. *)
Lemma GetClient_open a p w :
  closed p = false ->
  exists r p' w' discarded,
    GetClient a (p, w) = Done r (p', w') /\
    closed p' = false /\ auth p' = auth p /\ timeout p' = timeout p /\
    (forall a', a' <> a -> pool p' !! a' = pool p !! a') /\
    Forall (rejected (timeout p) (ticks w) (ticks w')) discarded /\
    (dialled w <= dialled w')%nat /\
    ((exists c rest,
         pool p !! a = Some (discarded ++ c :: rest) /\
         r = Ok c /\
         accepted (timeout p) (ticks w) (ticks w') c /\
         pool p' !! a = Some rest /\
         wire w' = wire w ++ closes discarded)
     \/
     (default [] (pool p !! a) = discarded /\
      pool p' !! a = (fun _ => []) <$> pool p !! a /\
      exists w1,
        wire w1 = wire w ++ closes discarded /\
        dialled w1 = dialled w /\
        NewRedisClient a (auth p) (timeout p) w1 = Done r w' /\
        forall c, r = Ok c ->
                  conn c = dialled w /\ addr c = a /\ LastErr c = None)).
Proof.
  intros Hopen. unfold GetClient. rewrite Hopen.
  destruct (pool p !! a) as [l|] eqn:Hl.
  - destruct (GetClient_loop_run p l w)
      as (discarded & found & rest & w1 & Hloop & Hdis & Hw1 & Ht1 & Hd1 & Hf).
    rewrite Hloop. destruct found as [c|].
    + destruct Hf as [-> Hacc].
      exists (Ok c), (set_pool (<[a := rest]> (pool p)) p), w1, discarded.
      cbn. split_and!; try done; try lia.
      * intros a' Hne. by rewrite lookup_insert_ne.
      * left. exists c, rest. rewrite lookup_insert_eq. by split_and!.
    + destruct Hf as [-> ->].
      destruct (NewRedisClient_run a (auth p) (timeout p) w1)
        as (r & w' & evs & Hnew & Hw & Ht & Hd & Hc).
      unfold inWorld. rewrite Hnew.
      exists r, (set_pool (<[a := []]> (pool p)) p), w', discarded.
      cbn. split_and!; try done; try lia.
      * intros a' Hne. by rewrite lookup_insert_ne.
      * eapply Forall_impl; [exact Hdis|]. intros x.
        apply rejected_wider; lia.
      * right. rewrite lookup_insert_eq. split_and!; try done.
        exists w1. split_and!; try done.
        intros c Hr. destruct (Hc c Hr) as (? & ? & ? & _).
        split_and!; [congruence|done|done].
  - destruct (NewRedisClient_run a (auth p) (timeout p) w)
      as (r & w' & evs & Hnew & Hw & Ht & Hd & Hc).
    unfold inWorld. rewrite Hnew. exists r, p, w', []. cbn.
    split_and!; try done.
    right. split_and!; try done.
    exists w. rewrite app_nil_r. split_and!; try done.
    intros c Hr. by destruct (Hc c Hr) as (? & ? & ? & _).
Qed.

(** Acquire and Cleanup only take clients out of the registry. *)
Lemma GetClient_mono a q v :
  exists r q' v',
    GetClient a (q, v) = Done r (q', v') /\
    (forall c, idle q' c -> idle q c) /\
    (dialled v <= dialled v')%nat /\
    (forall c, r = Ok c -> idle q c \/ conn c = dialled v).
Proof.
  destruct (closed q) eqn:Hcl.
  { exists (Err ErrClosedRedisPool), q, v.
    rewrite GetClient_closed by done. by split_and!. }
  destruct (GetClient_open a q v Hcl)
    as (r & q' & v' & discarded & Hrun & _ & _ & _ & Hother & _ & Hd & Hcase).
  exists r, q', v'. split_and!; [done| |done|].
  - intros c (a' & l & Hl & Hin).
    destruct (decide (a' = a)) as [->|Hne].
    + destruct Hcase as [(c0 & rest & Hp & _ & _ & Hp' & _)|(_ & Hp' & _)].
      * rewrite Hp' in Hl. injection Hl as <-.
        exists a, (discarded ++ c0 :: rest). split; [done|].
        apply elem_of_app. right. by apply list_elem_of_further.
      * rewrite Hp' in Hl. destruct (pool q !! a); [|done].
        injection Hl as <-. by apply elem_of_nil in Hin.
    + rewrite (Hother a' Hne) in Hl. by exists a', l.
  - intros c ->.
    destruct Hcase as [(c0 & rest & Hp & [= <-] & _)|(_ & _ & w1 & _ & _ & _ & Hc)].
    + left. exists a, (discarded ++ c :: rest). split; [done|].
      apply elem_of_app. right. apply list_elem_of_here.
    + right. by destruct (Hc c eq_refl).
Qed.

Lemma Cleanup_range_mono order q v :
  exists q' v',
    Cleanup_range order (q, v) = Done tt (q', v') /\
    (forall c, idle q' c -> idle q c) /\
    dialled v' = dialled v.
Proof.
  revert q v. induction order as [|addr order IH]; intros q v.
  - exists q, v. by split_and!.
  - cbn [Cleanup_range]. destruct (pool q !! addr) as [l|] eqn:Hl; [|apply IH].
    rewrite Cleanup_loop_run.
    destruct (sweep_run q l v)
      as (kl & dl & v1 & Hs & Hsp & _ & _ & _ & _ & Hd1).
    rewrite Hs.
    set (m1 := if decide (length kl = 0%nat) then delete addr (pool q)
               else <[addr := kl]> (pool q)).
    destruct (IH (set_pool m1 q) v1) as (q' & v' & Hrange & Hsub & Hd).
    exists q', v'. split.
    { unfold m1 in Hrange. by destruct (decide (length kl = 0%nat)). }
    split; [|congruence].
    intros c Hc. destruct (Hsub c Hc) as (a & l0 & Hl0 & Hin).
    cbn [set_pool pool] in Hl0. unfold m1 in Hl0.
    rewrite swept_entry in Hl0.
    destruct (decide (a = addr)) as [->|Hne].
    + exists addr, l. split; [done|].
      apply (splits_elem l kl dl c Hsp). left.
      destruct kl; [done|]. by injection Hl0 as <-.
    + by exists a, l0.
Qed.

Lemma Cleanup_mono order q v :
  exists e q' v',
    Cleanup order (q, v) = Done e (q', v') /\
    (forall c, idle q' c -> idle q c) /\
    dialled v' = dialled v.
Proof.
  unfold Cleanup. destruct (closed q); [by eauto 10|].
  destruct (Cleanup_range_mono order q v) as (q' & v' & Hrange & Hsub & Hd).
  rewrite (bind_Done _ _ _ _ _ Hrange). by eauto 10.
Qed.

(** A connection that is out of the registry stays out, and no later
    Acquire hands it over. *)
Lemma calls_never_return (n : Conn) ks :
  Forall takes_only ks ->
  forall q v,
    (forall c, idle q c -> conn c <> n) -> (n < dialled v)%nat ->
    exists rs q' v',
      calls ks (q, v) = Done rs (q', v') /\
      (forall c, idle q' c -> conn c <> n) /\
      (forall c, RetClient (Ok c) ∈ rs -> conn c <> n).
Proof.
  induction 1 as [|k ks Hk _ IH]; intros q v Hout Hn.
  - exists [], q, v. split_and!; [done|done|].
    intros c Hc. by apply elem_of_nil in Hc.
  - cbn [calls].
    assert (exists r q1 v1,
               call k (q, v) = Done r (q1, v1) /\
               (forall c, idle q1 c -> conn c <> n) /\
               (n < dialled v1)%nat /\
               (forall c, r = RetClient (Ok c) -> conn c <> n))
      as (r & q1 & v1 & Hcall & Hout1 & Hn1 & Hr).
    { destruct k as [a|client|order|order]; try done; cbn [call].
      - destruct (GetClient_mono a q v) as (r & q1 & v1 & Hrun & Hsub & Hd & Hc).
        rewrite (bind_Done _ _ _ _ _ Hrun).
        exists (RetClient r), q1, v1. split_and!; [done|auto|lia|].
        intros c [= ->]. destruct (Hc c eq_refl) as [Hidle|Hnew]; [auto|lia].
      - destruct (Cleanup_mono order q v) as (e & q1 & v1 & Hrun & Hsub & Hd).
        rewrite (bind_Done _ _ _ _ _ Hrun).
        exists (RetError e), q1, v1. split_and!; [done|auto|lia|done]. }
    destruct (IH q1 v1 Hout1 Hn1) as (rs & q' & v' & Hks & Hout' & Hrs).
    rewrite (bind_Done _ _ _ _ _ Hcall), (bind_Done _ _ _ _ _ Hks).
    exists (r :: rs), q', v'. split_and!; [done|done|].
    intros c Hc. apply elem_of_cons in Hc as [Hc|Hc]; auto.
Qed.

(** C4. On an open pool GetClient returns.  It takes the idle clients of
    the address from the front: those it passes over were rejected by the
    predicate, their connections are closed and they are gone from the
    list; the first one the predicate accepts is returned and leaves the
    list with them, the rest of the list staying as it was.  When no idle
    client is accepted (or the address has no list) the result is that of
    NewRedisClient, a client on a connection dialled just then.  On a
    registry that holds no connection twice, a client passed over is in no
    idle list afterwards, and however many Acquire and Cleanup calls
    follow, it is in no idle list and is never handed out. *)
Theorem GetClient_scan a p w :
  closed p = false ->
  exists r p' w' discarded,
    GetClient a (p, w) = Done r (p', w') /\
    closed p' = false /\ auth p' = auth p /\ timeout p' = timeout p /\
    (forall a', a' <> a -> pool p' !! a' = pool p !! a') /\
    Forall (rejected (timeout p) (ticks w) (ticks w')) discarded /\
    ((exists c rest,
         pool p !! a = Some (discarded ++ c :: rest) /\
         r = Ok c /\
         accepted (timeout p) (ticks w) (ticks w') c /\
         pool p' !! a = Some rest /\
         wire w' = wire w ++ closes discarded)
     \/
     (default [] (pool p !! a) = discarded /\
      pool p' !! a = (fun _ => []) <$> pool p !! a /\
      exists w1,
        wire w1 = wire w ++ closes discarded /\
        dialled w1 = dialled w /\
        NewRedisClient a (auth p) (timeout p) w1 = Done r w' /\
        forall c, r = Ok c ->
                  conn c = dialled w /\ addr c = a /\ LastErr c = None)) /\
    (registry_wf p w ->
     forall d, d ∈ discarded ->
     forall ks, Forall takes_only ks ->
     exists rs p2 w2,
       calls ks (p', w') = Done rs (p2, w2) /\
       (forall c, idle p2 c -> conn c <> conn d) /\
       (forall c, RetClient (Ok c) ∈ rs -> conn c <> conn d)).
Proof.
  intros Hopen.
  destruct (GetClient_open a p w Hopen)
    as (r & p' & w' & discarded & Hrun & Hc & Ha & Hto & Hother & Hdis & Hd
        & Hcase).
  exists r, p', w', discarded. split_and!; try done.
  intros [Hdistinct Hdialled] d Hdin ks Hks.
  assert (exists l i, pool p !! a = Some l /\ d ∈ l /\
                      (i < length discarded)%nat /\ l !! i = Some d)
    as (l & i & Hl & Hdl & Hi & Hli).
  { apply list_elem_of_lookup in Hdin as [i Hi].
    pose proof (lookup_lt_Some _ _ _ Hi) as Hlt.
    destruct Hcase as [(c0 & rest & Hp & _)|(Hp & _)].
    - exists (discarded ++ c0 :: rest), i. split_and!; [done| |done|].
      + apply elem_of_app. left. apply list_elem_of_lookup. eauto.
      + by rewrite lookup_app_l.
    - destruct (pool p !! a) as [l|]; cbn in Hp; subst.
      + exists discarded, i. split_and!; [done| |done|done].
        apply list_elem_of_lookup. eauto.
      + by rewrite lookup_nil in Hi. }
  apply calls_never_return; [done| |].
  - intros c (a' & l' & Hl' & Hin) Heq.
    apply list_elem_of_lookup in Hin as [j Hj].
    destruct (decide (a' = a)) as [->|Hne].
    + destruct Hcase as [(c0 & rest & Hp & _ & _ & Hp' & _)|(_ & Hp' & _)].
      * rewrite Hp' in Hl'. injection Hl' as <-.
        rewrite Hp in Hl. injection Hl as <-.
        assert (Hj' : (discarded ++ c0 :: rest) !! (length discarded + S j)%nat
                      = Some c).
        { rewrite lookup_app_r by lia.
          replace (length discarded + S j - length discarded)%nat
            with (S j) by lia. done. }
        destruct (Hdistinct a a _ _ _ _ _ _ Hp Hj' Hp Hli Heq) as [_ ?]. lia.
      * rewrite Hp' in Hl'. rewrite Hl in Hl'. cbn in Hl'.
        injection Hl' as <-. by rewrite lookup_nil in Hj.
    + rewrite (Hother a' Hne) in Hl'.
      by destruct (Hdistinct a' a _ _ _ _ _ _ Hl' Hj Hl Hli Heq).
  - assert (conn d < dialled w)%nat; [|lia].
    apply Hdialled. by exists a, l.
Qed.

(** ** PutClient *)

Lemma PutClient_run client p w :
  closed p = false ->
  exists b w1,
    isRecyclable p client w = Done b w1 /\
    (b = true <-> recyclable (timeout p) (current w) client) /\
    PutClient client (p, w)
    = Done tt
        (if b
         then (set_pool (<[addr client :=
                            client :: default [] (pool p !! addr client)]>
                           (pool p)) p, w1)
         else (p, emit (EvClose (conn client)) w1)).
Proof.
  intros Hopen.
  destruct (isRecyclable_run p client w) as (b & w1 & Hrun & Hiff & _).
  exists b, w1. split_and!; [done|done|].
  unfold PutClient. rewrite Hopen, Hrun. by destruct b.
Qed.

(** Release: a client the predicate accepts goes to the front of the idle
    list of its address (a list is made when there is none); a client it
    rejects is closed and the registry stays as it was. *)
Lemma PutClient_open client p w :
  closed p = false ->
  exists b w1,
    isRecyclable p client w = Done b w1 /\
    (b = true <-> recyclable (timeout p) (current w) client) /\
    PutClient client (p, w)
    = Done tt
        (if b
         then (set_pool (<[addr client :=
                            client :: default [] (pool p !! addr client)]>
                           (pool p)) p, w1)
         else (p, emit (EvClose (conn client)) w1)).
Proof. apply PutClient_run. Qed.

(** Whatever the pool, a client that PutClient leaves idle has no recorded
    error, and the idle lists hold nothing else that was not there. *)
Lemma PutClient_idle client p w :
  exists p' w',
    PutClient client (p, w) = Done tt (p', w') /\
    closed p' = closed p /\
    forall c, idle p' c -> idle p c \/ (c = client /\ LastErr c = None).
Proof.
  destruct (closed p) eqn:Hcl.
  { exists p, (emit (EvClose (conn client)) w).
    rewrite PutClient_closed by done. split_and!; [done|done|auto]. }
  destruct (PutClient_run client p w Hcl) as (b & w1 & _ & Hiff & Hput).
  rewrite Hput. destruct b.
  - eexists _, _. split; [reflexivity|]. split; [done|].
    intros c (a & l & Hl & Hin). cbn in Hl.
    destruct (decide (a = addr client)) as [->|Hne].
    + rewrite lookup_insert_eq in Hl. injection Hl as <-.
      apply elem_of_cons in Hin as [->|Hin].
      * right. split; [done|]. by destruct (proj1 Hiff eq_refl).
      * left. exists (addr client).
        destruct (pool p !! addr client) as [l|]; cbn in Hin.
        { by exists l. }
        by apply elem_of_nil in Hin.
    + rewrite lookup_insert_ne in Hl by done. left. by exists a, l.
  - eexists _, _. split; [reflexivity|]. split; [done|]. auto.
Qed.

(** ** Verdicts under a steady clock *)

(** When every reading between two instants shows [now], the verdicts of
    that interval are those of the predicate at [now]. *)
Lemma accepted_steady t n0 n1 now c :
  (forall n, (n0 <= n < n1)%nat -> clock n = now) ->
  accepted t n0 n1 c -> recyclable t now c.
Proof.
  intros Hnow [Herr [Ht|(n & Hn & Hlt)]]; split; auto.
  right. by rewrite <- (Hnow n Hn).
Qed.

Lemma rejected_steady t n0 n1 now c :
  (forall n, (n0 <= n < n1)%nat -> clock n = now) ->
  rejected t n0 n1 c -> ~ recyclable t now c.
Proof.
  intros Hnow [Herr|[Ht (n & Hn & Hlt)]] [Hc Hrec]; [done|].
  destruct Hrec as [?|Hrec]; [done|]. by rewrite <- (Hnow n Hn) in Hrec.
Qed.
End Pool_facts.

(** C2, as it was stated, fails for PutClient: after Close it returns
    nothing, where the claim wants the error of a closed pool. *)
Lemma PutClient_after_Close_returns_nothing :
  exists p1 w1 st,
    @Close Demo.platform ["10.0.0.9:6379"] (Demo.p0, Demo.w0)
    = Done None (p1, w1) /\
    @call Demo.platform (CallPutClient Demo.c0) (p1, w1) = Done RetNothing st /\
    ~ fails_closed RetNothing.
Proof.
  eexists _, _, _. split; [by vm_compute|]. split; [by vm_compute|].
  by intros [?|?].
Qed.

Lemma Close_idempotent_witness :
  exists p1 w1,
    @Close Demo.platform ["10.0.0.9:6379"] (Demo.p0, Demo.w0)
    = Done None (p1, w1) /\
    pool p1 = ∅ /\
    @Close Demo.platform [] (p1, w1) = Done None (p1, w1).
Proof.
  assert (Hinv : closed Demo.p0 = true -> pool Demo.p0 = ∅) by done.
  assert (Hcover : forall a,
             is_Some (pool Demo.p0 !! a) -> a ∈ ["10.0.0.9:6379"]).
  { intros a [l Hl]. cbn in Hl.
    apply lookup_singleton_Some in Hl as [<- _]. apply list_elem_of_here. }
  destruct (@Close_idempotent Demo.platform ["10.0.0.9:6379"] Demo.p0 Demo.w0
              Hinv Hcover)
    as (p1 & w1 & evs & Hrun & _ & Hempty & _ & _ & Hagain).
  exists p1, w1. split_and!; [exact Hrun|exact Hempty|apply Hagain].
Defined.

Lemma Demo_enumerates :
  @enumerates ["10.0.0.9:6379"] Demo.p0.
Proof.
  split.
  - apply NoDup_singleton.
  - intros a. cbn. split.
    + intros ->%list_elem_of_singleton. by rewrite lookup_singleton_eq.
    + intros [l Hl]. apply lookup_singleton_Some in Hl as [<- _].
      apply list_elem_of_here.
Qed.

Lemma Cleanup_keeps_recyclable_witness :
  exists p' w',
    @Cleanup Demo.platform ["10.0.0.9:6379"] (Demo.p0, Demo.w0)
    = Done None (p', w').
Proof.
  destruct (proj2 (@Cleanup_keeps_recyclable Demo.platform
                     ["10.0.0.9:6379"] Demo.p0 Demo.w0 Demo_enumerates)
                  eq_refl)
    as (p' & w' & evs & kept & dropped & Hrun & _).
  exists p', w'. exact Hrun.
Defined.

(** Cleanup drops the poisoned client, closes its connection and keeps
    the healthy one. *)
Example Cleanup_demo :
  @Cleanup Demo.platform ["10.0.0.9:6379"] (Demo.p0, Demo.w0)
  = Done None
         (mkPool "" {[ "10.0.0.9:6379" := [Demo.c0] ]} 10000000000 false,
          mkWorld [EvClose 1%nat] 1%nat 4%nat).
Proof. by vm_compute. Qed.

Lemma GetClient_scan_witness :
  exists r st,
    @GetClient Demo.platform "10.0.0.9:6379" (Demo.p0, Demo.w0) = Done r st.
Proof.
  destruct (@GetClient_scan Demo.platform "10.0.0.9:6379" Demo.p0 Demo.w0
              eq_refl)
    as (r & p' & w' & discarded & Hrun & _).
  exists r, (p', w'). exact Hrun.
Defined.

(** GetClient passes over the poisoned client at the front, closes its
    connection, and hands out the healthy one behind it. *)
Example GetClient_demo :
  @GetClient Demo.platform "10.0.0.9:6379" (Demo.p0, Demo.w0)
  = Done (Ok Demo.c0)
         (mkPool "" {[ "10.0.0.9:6379" := [] ]} 10000000000 false,
          mkWorld [EvClose 1%nat] 1%nat 4%nat).
Proof. by vm_compute. Qed.

(** With no idle client for the address, GetClient dials. *)
Example GetClient_dials :
  @GetClient Demo.platform "10.0.0.7:6379" (Demo.p0, Demo.w0)
  = Done (Ok (mkClient 4%nat "10.0.0.7:6379" None 0))
         (Demo.p0,
          mkWorld [EvDial "10.0.0.7:6379" 10000000000] 1%nat 5%nat).
Proof. by vm_compute. Qed.

Lemma PutClient_open_witness :
  @PutClient Demo.platform Demo.c3 (Demo.p0, Demo.w0)
  = Done tt
      (mkPool "" (<[ "10.0.0.8:6379" := [Demo.c3] ]> (pool Demo.p0))
              10000000000 false,
       mkWorld [] 1%nat 4%nat).
Proof.
  destruct (@PutClient_open Demo.platform Demo.c3 Demo.p0 Demo.w0 eq_refl)
    as (b & w1 & Hrun & _ & Hput).
  rewrite Hput. vm_compute in Hrun. by injection Hrun as <- <-.
Defined.

(** A released client goes in front of the ones already idle. *)
Example PutClient_front :
  exists w',
    @PutClient Demo.platform (mkClient 2%nat "10.0.0.9:6379" None 0)
               (Demo.p0, Demo.w0)
    = Done tt
        (mkPool "" {[ "10.0.0.9:6379" :=
                        [mkClient 2%nat "10.0.0.9:6379" None 0;
                         Demo.c1; Demo.c0] ]} 10000000000 false, w').
Proof. eexists. by vm_compute. Qed.

(** A poisoned client is closed instead. *)
Example PutClient_poisoned :
  @PutClient Demo.platform Demo.c1 (Demo.p0, Demo.w0)
  = Done tt (Demo.p0, mkWorld [EvClose 1%nat] 0%nat 4%nat).
Proof. by vm_compute. Qed.

(** * More on the client *)

Section More_client_facts.
Context `{Platform}.

(** ** The order of what is sent *)


(** ** What the use of a client leaves alone *)

Lemma used_refl c w : used c w c w.
Proof.
  split_and!; try done. exists []. by rewrite app_nil_r.
Qed.

Lemma used_trans c w c1 w1 c2 w2 :
  used c w c1 w1 -> used c1 w1 c2 w2 -> used c w c2 w2.
Proof.
  intros (Hc1 & Ha1 & Hd1 & Ht1 & evs1 & Hw1 & He1)
         (Hc2 & Ha2 & Hd2 & Ht2 & evs2 & Hw2 & He2).
  split_and!; try congruence; try lia.
  exists (evs1 ++ evs2). split.
  - rewrite Hw2, Hw1. by rewrite app_assoc.
  - apply Forall_app. split; [done|]. by rewrite <- Hc1.
Qed.

Lemma command_used cmd args c w :
  exists r c' w',
    command cmd args (c, w) = Done r (c', w') /\
    used c w c' w' /\
    (LastErr c <> None -> r = Err ErrFailedRedisClient /\ c' = c /\ w' = w).
Proof.
  unfold command. destruct (LastErr c) as [e|] eqn:Hc.
  { eexists _, _, _. split; [reflexivity|]. split; [apply used_refl|done]. }
  destruct (conn_Do w (conn c) cmd args) as [reply|err].
  - eexists _, _, _. split; [reflexivity|]. split; [|done].
    split_and!; try done; [cbn; lia|].
    exists [EvDo (conn c) cmd args]. split; [done|].
    constructor; [by eauto|constructor].
  - eexists _, _, _. split; [reflexivity|]. split; [|done].
    split_and!; try done.
    exists [EvDo (conn c) cmd args]. split; [done|].
    constructor; [by eauto|constructor].
Qed.

Lemma GetMaster_used c w :
  exists r c' w',
    GetMaster (c, w) = Done r (c', w') /\
    used c w c' w' /\
    (LastErr c <> None -> r = Err ErrFailedRedisClient /\ c' = c /\ w' = w).
Proof.
  destruct (command_used "INFO" [] c w) as (r0 & c' & w' & Hcmd & Hu & Hp).
  assert (exists r, GetInfo (c, w) = Done r (c', w') /\
                    (LastErr c <> None -> r = Err ErrFailedRedisClient))
    as (r1 & Hinfo & Hp1).
  { unfold GetInfo. rewrite (bind_Done _ _ _ _ _ Hcmd).
    destruct r0 as [reply|e].
    - destruct (redis_String reply None); eexists; (split; [reflexivity|]);
        intros Hc; by destruct (Hp Hc).
    - eexists. split; [reflexivity|]. intros Hc.
      destruct (Hp Hc) as [[= ->] _]. done. }
  unfold GetMaster. rewrite (bind_Done _ _ _ _ _ Hinfo).
  destruct r1 as [info|e].
  - destruct (decide (_ /\ _)); eexists _, _, _;
      (split; [reflexivity|]); (split; [done|]);
      intros Hc; by specialize (Hp1 Hc).
  - eexists _, _, _. split; [reflexivity|]. split; [done|].
    intros Hc. injection (Hp1 Hc) as ->. by destruct (Hp Hc) as (_ & -> & ->).
Qed.

(** Every method call returns, keeps the connection and the address of
    the client, dials nothing and closes nothing: the wire grows only by
    commands on the connection of the client and by log lines. *)
Lemma invoke_used k c w :
  exists e c' w', invoke k (c, w) = Done e (c', w') /\ used c w c' w'.
Proof.
  destruct k as [|host port slotId| | | |master]; cbn [invoke].
  - destruct (command_used "SLOTSINFO" [] c w) as (r0 & c' & w' & Hcmd & Hu & _).
    destruct (SlotsInfo_state c w _ _ Hcmd) as [r Hr].
    rewrite (bind_Done _ _ _ _ _ Hr). by eauto.
  - destruct (command_used "SLOTSMGRTTAGSLOT"
                [AStr host; AStr port; AInt (30 * 1000); AInt slotId] c w)
      as (r0 & c' & w' & Hcmd & Hu & _).
    destruct (SlotsMgrtTagSlot_state host port slotId c w _ _ Hcmd) as [r Hr].
    rewrite (bind_Done _ _ _ _ _ Hr). by eauto.
  - destruct (command_used "INFO" [] c w) as (r0 & c' & w' & Hcmd & Hu & _).
    destruct (GetInfo_state c w) as (r0' & r & st & Hcmd' & Hr).
    rewrite Hcmd in Hcmd'. injection Hcmd' as _ <-.
    rewrite (bind_Done _ _ _ _ _ Hr). by eauto.
  - destruct (GetMaster_used c w) as (r & c' & w' & Hr & Hu & _).
    rewrite (bind_Done _ _ _ _ _ Hr). by eauto.
  - destruct (command_used "CONFIG" [AStr "GET"; AStr "maxmemory"] c w)
      as (r0 & c' & w' & Hcmd & Hu & _).
    destruct (GetMaxMemory_state c w _ _ Hcmd) as [r Hr].
    rewrite (bind_Done _ _ _ _ _ Hr). by eauto.
  - unfold SlaveOf. destruct (decide (master = addr c)).
    { eexists _, _, _. split; [reflexivity|]. apply used_refl. }
    destruct (decide (master = "")).
    + destruct (command_used "SLAVEOF" [AStr "NO"; AStr "ONE"] c w)
        as (r0 & c' & w' & Hcmd & Hu & _).
      rewrite (bind_Done _ _ _ _ _ Hcmd). destruct r0; by eauto.
    + destruct (GetMaster_used c w) as (r & c1 & w1 & Hr & Hu & _).
      rewrite (bind_Done _ _ _ _ _ Hr).
      destruct r as [m|e]; [|by eauto].
      destruct (decide (m = master)); [by eauto|].
      destruct (net_SplitHostPort master) as [[host port]|e]; [|by eauto].
      set (ev := EvWarnf _ _).
      destruct (command_used "SLAVEOF" [AStr host; AStr port] c1 (emit ev w1))
        as (r2 & c2 & w2 & Hcmd & Hu2 & _).
      unfold mbind at 1, St_mbind, St_bind. cbn [inWorld]. fold ev.
      rewrite (bind_Done _ _ _ _ _ Hcmd).
      assert (used c w c2 w2).
      { eapply used_trans; [exact Hu|].
        eapply used_trans; [|exact Hu2].
        split_and!; try done. exists [ev]. split; [done|].
        constructor; [|constructor]. right. unfold ev. by eauto. }
      destruct r2; by eauto.
Qed.

(** The methods of a client touch nothing but its own connection: whatever
    sequence of SlotsInfo, SlotsMgrtTagSlot, GetInfo, GetMaster,
    GetMaxMemory and SlaveOf is run, each call returns, the client keeps
    its connection and its address, nothing is dialled, and everything
    added to the wire is a command on that connection or a log line; no
    connection is closed. *)
Lemma client_calls_frame ks c w :
  exists es c' w',
    invokes ks (c, w) = Done es (c', w') /\
    length es = length ks /\
    conn c' = conn c /\ addr c' = addr c /\
    dialled w' = dialled w /\
    exists evs,
      wire w' = wire w ++ evs /\
      Forall (fun ev => (exists cmd args, ev = EvDo (conn c) cmd args) \/
                        (exists format args, ev = EvWarnf format args)) evs.
Proof.
  assert (exists es c' w',
             invokes ks (c, w) = Done es (c', w') /\
             length es = length ks /\ used c w c' w')
    as (es & c' & w' & Hrun & Hlen & Hc & Ha & Hd & _ & Hev).
  { revert c w. induction ks as [|k ks IH]; intros c w.
    - exists [], c, w. split_and!; [done|done|apply used_refl].
    - destruct (invoke_used k c w) as (e & c1 & w1 & Hk & Hu1).
      destruct (IH c1 w1) as (es & c' & w' & Hks & Hlen & Hu).
      cbn [invokes].
      rewrite (bind_Done _ _ _ _ _ Hk), (bind_Done _ _ _ _ _ Hks).
      exists (e :: es), c', w'. split_and!; [done|by cbn; rewrite Hlen|].
      by eapply used_trans. }
  exists es, c', w'. by split_and!.
Qed.

(** ** Maps read from a reply *)

Lemma put_fields_other `{Countable K} {A B} (f : A -> option (K * B))
    (l : list A) (m : gmap K B) k :
  Forall (fun y => forall v, f y <> Some (k, v)) l ->
  foldl (put_field f) m l !! k = m !! k.
Proof.
  revert m. induction l as [|x l IH]; intros m Hl; [done|].
  apply Forall_cons in Hl as [Hx Hl]. cbn. rewrite IH by done.
  unfold put_field. destruct (f x) as [[k' v']|] eqn:Hf; [|done].
  destruct (decide (k' = k)) as [->|Hne]; [by destruct (Hx v')|].
  by rewrite lookup_insert_ne.
Qed.

Lemma put_fields_last `{Countable K} {A B} (f : A -> option (K * B))
    (pre post : list A) x (m : gmap K B) k v :
  f x = Some (k, v) ->
  Forall (fun y => forall v', f y <> Some (k, v')) post ->
  foldl (put_field f) m (pre ++ x :: post) !! k = Some v.
Proof.
  intros Hx Hpost. rewrite foldl_app. cbn.
  rewrite put_fields_other by done.
  unfold put_field at 1. rewrite Hx. by rewrite lookup_insert_eq.
Qed.

Lemma put_fields_sound `{Countable K} {A B} (f : A -> option (K * B))
    (l : list A) (m : gmap K B) k v :
  foldl (put_field f) m l !! k = Some v ->
  m !! k = Some v \/ exists x, x ∈ l /\ f x = Some (k, v).
Proof.
  revert m. induction l as [|x l IH]; intros m Hk; [by left|].
  cbn in Hk. destruct (IH _ Hk) as [Hm|(y & Hy & Hf)].
  - unfold put_field in Hm. destruct (f x) as [[k' v']|] eqn:Hf; [|by left].
    destruct (decide (k' = k)) as [->|Hne].
    + rewrite lookup_insert_eq in Hm. injection Hm as ->.
      right. exists x. split; [apply list_elem_of_here|done].
    + rewrite lookup_insert_ne in Hm by done. by left.
  - right. exists y. split; [by apply list_elem_of_further|done].
Qed.

(** The loop of SlotsInfo on entries that all decode to pairs. *)
Lemma SlotsInfo_loop_pairs i infos prs slots :
  Forall2 pair_of infos prs ->
  SlotsInfo_loop i infos slots = Ok (foldl (put_field Some) slots prs).
Proof.
  intros Hall. revert i slots.
  induction Hall as [|info [p0 p1] infos prs Hp _ IH]; intros i slots;
    [done|].
  cbn [SlotsInfo_loop]. change (redis_Ints info None = Ok [p0; p1]) in Hp. rewrite Hp.
  by rewrite IH.
Qed.

(** The loop of SlotsInfo stops at the first entry that is no pair. *)
Lemma SlotsInfo_loop_bad i good prs bad rest slots :
  Forall2 pair_of good prs ->
  (forall pr, ~ pair_of bad pr) ->
  SlotsInfo_loop i (good ++ bad :: rest) slots
  = Err (Errorf "invalid response[%d] = %v"
                [FInt (i + Z.of_nat (length good)); FReply bad]).
Proof.
  intros Hall Hbad. revert i slots.
  induction Hall as [|info [p0 p1] infos prs Hp _ IH]; intros i slots.
  - cbn [app length SlotsInfo_loop]. rewrite Z.add_0_r.
    destruct (redis_Ints bad None) as [[|p0 [|p1 [|? ?]]]|] eqn:Hb;
      try done.
    by destruct (Hbad (p0, p1)).
  - cbn [app length SlotsInfo_loop]. change (redis_Ints info None = Ok [p0; p1]) in Hp.
    rewrite Hp, IH. rewrite Nat2Z.inj_succ.
    by replace (i + 1 + Z.of_nat (length infos))
      with (i + Z.succ (Z.of_nat (length infos))) by lia.
Qed.

(** SlotsInfo, when every entry of the reply decodes to a pair (shard id,
    key count): the map holds, for each shard id, the count of the last
    entry that names it, and nothing for a shard id that no entry names. *)
Lemma SlotsInfo_pairs c w reply infos prs :
  LastErr c = None ->
  conn_Do w (conn c) "SLOTSINFO" [] = Ok reply ->
  redis_Values reply None = Ok infos ->
  Forall2 pair_of infos prs ->
  exists slots,
    SlotsInfo (c, w)
    = Done (Ok slots)
           (set_LastUse (current w) c,
            tick (emit (EvDo (conn c) "SLOTSINFO" []) w)) /\
    (forall pre k v post,
        prs = pre ++ (k, v) :: post -> k ∉ post.*1 -> slots !! k = Some v) /\
    (forall k, k ∉ prs.*1 -> slots !! k = None).
Proof.
  intros Hc Hdo Hvals Hall. unfold SlotsInfo.
  rewrite (bind_Done _ _ _ _ _ (command_sent _ _ c w reply Hc Hdo)).
  rewrite Hvals, (SlotsInfo_loop_pairs _ _ _ _ Hall).
  eexists. split; [reflexivity|]. split.
  - intros pre k v post -> Hk. apply put_fields_last; [done|].
    apply Forall_forall. intros [k' v'] Hin v'' [= -> _].
    apply Hk. apply list_elem_of_fmap. by exists (k, v').
  - intros k Hk. rewrite put_fields_other; [done|].
    apply Forall_forall. intros [k' v'] Hin v'' [= -> _].
    apply Hk. apply list_elem_of_fmap. by exists (k, v').
Qed.

(** SlotsInfo, when some entry of the reply is no pair: the error names
    the index of the first such entry, counted from 0, and the entry. *)
Lemma SlotsInfo_first_bad c w reply good prs bad rest :
  LastErr c = None ->
  conn_Do w (conn c) "SLOTSINFO" [] = Ok reply ->
  redis_Values reply None = Ok (good ++ bad :: rest) ->
  Forall2 pair_of good prs ->
  (forall pr, ~ pair_of bad pr) ->
  SlotsInfo (c, w)
  = Done (Err (Errorf "invalid response[%d] = %v"
                      [FInt (Z.of_nat (length good)); FReply bad]))
         (set_LastUse (current w) c,
          tick (emit (EvDo (conn c) "SLOTSINFO" []) w)).
Proof.
  intros Hc Hdo Hvals Hall Hbad. unfold SlotsInfo.
  rewrite (bind_Done _ _ _ _ _ (command_sent _ _ c w reply Hc Hdo)).
  rewrite Hvals, (SlotsInfo_loop_bad 0 _ _ _ _ _ Hall Hbad).
  by rewrite Z.add_0_l.
Qed.

(** The loop of GetInfo reads one field per line. *)
Lemma GetInfo_loop_fields lines info :
  GetInfo_loop lines info = foldl (put_field field_of) info lines.
Proof.
  revert info. induction lines as [|line lines IH]; intros info; [done|].
  cbn [GetInfo_loop foldl]. unfold put_field at 2, field_of.
  destruct (strings_SplitN line ":" 2) as [|k [|v [|? ?]]]; try apply IH.
  destruct (decide (strings_TrimSpace k <> "")); apply IH.
Qed.

(** GetInfo on a text reply: the map never has the empty key; each of its
    entries is the trimmed key and value of a line with a colon; and a key
    that several lines give keeps the value of the last of them. *)
Lemma GetInfo_fields c w reply text :
  LastErr c = None ->
  conn_Do w (conn c) "INFO" [] = Ok reply ->
  redis_String reply None = Ok text ->
  exists info,
    GetInfo (c, w)
    = Done (Ok info)
           (set_LastUse (current w) c,
            tick (emit (EvDo (conn c) "INFO" []) w)) /\
    info !! "" = None /\
    (forall k v,
        info !! k = Some v ->
        exists line a b,
          line ∈ strings_Split text LF /\
          strings_SplitN line ":" 2 = [a; b] /\
          k = strings_TrimSpace a /\ v = strings_TrimSpace b) /\
    (forall pre line post k v,
        strings_Split text LF = pre ++ line :: post ->
        field_of line = Some (k, v) ->
        Forall (fun l => forall v', field_of l <> Some (k, v')) post ->
        info !! k = Some v).
Proof.
  intros Hc Hdo Htext. unfold GetInfo.
  rewrite (bind_Done _ _ _ _ _ (command_sent _ _ c w reply Hc Hdo)).
  rewrite Htext, GetInfo_loop_fields.
  eexists. split; [reflexivity|]. split_and!.
  - rewrite put_fields_other; [done|].
    apply Forall_forall. intros line _ v. unfold field_of.
    destruct (strings_SplitN line ":" 2) as [|k [|v' [|? ?]]]; try done.
    destruct (decide (strings_TrimSpace k <> "")); [|done]. congruence.
  - intros k v Hk. apply put_fields_sound in Hk as [Hk|(line & Hin & Hf)];
      [done|].
    unfold field_of in Hf.
    destruct (strings_SplitN line ":" 2) as [|a [|b [|? ?]]] eqn:Hs; try done.
    destruct (decide (strings_TrimSpace a <> "")); [|done].
    injection Hf as <- <-. by exists line, a, b.
  - intros pre line post k v -> Hf Hpost. by apply put_fields_last.
Qed.

(** ** The memory ceiling: replies that do not fit *)

(** GetMaxMemory answers a reply that is no pair of values, or whose
    second value is no integer, with the invalid-response error that
    carries the raw reply; the send counted as a use of the client. *)
Lemma GetMaxMemory_invalid c w reply :
  LastErr c = None ->
  conn_Do w (conn c) "CONFIG" [AStr "GET"; AStr "maxmemory"] = Ok reply ->
  (is_Some (err_of (redis_Values reply None)) \/
   (exists ps, redis_Values reply None = Ok ps /\ length ps <> 2%nat) \/
   (exists p0 p1, redis_Values reply None = Ok [p0; p1] /\
                  is_Some (err_of (redis_Int p1 None)))) ->
  GetMaxMemory (c, w)
  = Done (Err (Errorf "invalid response = %v" [FReply reply]))
         (set_LastUse (current w) c,
          tick (emit (EvDo (conn c) "CONFIG"
                           [AStr "GET"; AStr "maxmemory"]) w)).
Proof.
  intros Hc Hdo Hbad. unfold GetMaxMemory.
  rewrite (bind_Done _ _ _ _ _ (command_sent _ _ c w reply Hc Hdo)).
  destruct Hbad as [Hv|[(ps & Hv & Hlen)|(p0 & p1 & Hv & Hi)]].
  - destruct (redis_Values reply None); [by destruct Hv|done].
  - rewrite Hv. by destruct ps as [|? [|? [|? ?]]].
  - rewrite Hv. destruct (redis_Int p1 None); [by destruct Hi|done].
Qed.

(** ** Connections made by NewRedisClient *)

(** NewRedisClient leaks no connection.  When it returns a client, the
    client owns the connection dialled by this call, has no recorded
    error, carries the address asked for and the time of its making, and
    its connection was not closed.  When it returns an error, either no
    connection was made (the dial failed) or the one that was made has
    been closed, last thing (AUTH failed).  AUTH is sent only for a
    non-empty secret. *)
Lemma NewRedisClient_no_leak a au t w :
  exists r w' evs,
    NewRedisClient a au t w = Done r w' /\
    wire w' = wire w ++ EvDial a t :: evs /\
    (au = "" -> Forall (fun ev => forall n cmd args, ev <> EvDo n cmd args) evs) /\
    match r with
    | Ok c =>
      conn c = dialled w /\ addr c = a /\ LastErr c = None /\
      LastUse c = current w /\
      dialled w' = S (dialled w) /\ ticks w' = S (ticks w) /\
      EvClose (conn c) ∉ evs
    | Err _ =>
      (dialled w' = dialled w /\ evs = []) \/
      (dialled w' = S (dialled w) /\
       evs = [EvDo (dialled w) "AUTH" [AStr au]; EvClose (dialled w)])
    end.
Proof.
  unfold NewRedisClient, current. destruct (dial w a t) as [err|].
  { eexists _, _, []. split; [reflexivity|]. cbn.
    split_and!; [done|by constructor|by left]. }
  destruct (decide (au <> "")) as [Hau|Hau].
  - destruct (conn_Do _ _ _ _) as [reply|err].
    + eexists _, _, [_]. split; [reflexivity|]. cbn.
      split_and!; try done.
      all: try (by rewrite <- app_assoc).
      all: by intros [?|[]%elem_of_nil]%elem_of_cons.
    + eexists _, _, [_; _]. split; [reflexivity|]. cbn.
      split_and!; [by rewrite <- !app_assoc|done|by right].
  - eexists _, _, []. split; [reflexivity|]. cbn.
    split_and!; try done.
    all: try (by constructor).
    all: by intros []%elem_of_nil.
Qed.

End More_client_facts.

(** * More on the pool *)

Section More_pool_facts.
Context `{Platform}.

(** ** The idle window *)

(** The predicate on a healthy client, with the world it leaves. *)
Lemma isRecyclable_healthy p c w :
  LastErr c = None ->
  isRecyclable p c w
  = if decide (timeout p = 0) then Done true w
    else Done (current w <? LastUse c + timeout p `quot` 2) (tick w).
Proof.
  intros Hc. unfold isRecyclable. rewrite Hc.
  by destruct (decide (timeout p = 0)).
Qed.

(** The idle window of a client starts at its last successful command: in
    a pool with a timeout, the client that just got a reply is accepted at
    the readings of the clock before that instant plus half the timeout,
    and at no reading from then on. *)
Lemma command_refreshes cmd args c w reply :
  LastErr c = None ->
  conn_Do w (conn c) cmd args = Ok reply ->
  exists c' w',
    command cmd args (c, w) = Done (Ok reply) (c', w') /\
    forall p v, exists b v',
      isRecyclable p c' v = Done b v' /\
      (b = true <->
       timeout p = 0 \/ current v < current w + timeout p `quot` 2).
Proof.
  intros Hc Hdo. eexists _, _. split; [by apply command_sent|].
  intros p v.
  destruct (isRecyclable_run p (set_LastUse (current w) c) v)
    as (b & v' & Hrun & Hiff & _).
  exists b, v'. split; [done|]. rewrite Hiff. unfold recyclable. cbn.
  split; [by intros [_ ?]|by intros ?].
Qed.

(** A client that has expired stays expired: once the predicate rejects
    it, it rejects it at every later reading of the clock, as long as the
    client is not used. *)
Lemma isRecyclable_expires p c w w1 v :
  isRecyclable p c w = Done false w1 ->
  current w <= current v ->
  exists v1, isRecyclable p c v = Done false v1.
Proof.
  intros Hw Hlater.
  destruct (isRecyclable_run p c w) as (b & w1' & Hrun & Hiff & _).
  rewrite Hw in Hrun. injection Hrun as <- <-.
  destruct (isRecyclable_run p c v) as (b & v1 & Hrun & Hiff' & _).
  exists v1. destruct b; [|done].
  destruct (proj1 Hiff' eq_refl) as [Hc Ht].
  assert (recyclable (timeout p) (current w) c) as Hrec.
  { split; [done|]. destruct Ht as [?|?]; [by left|right; lia]. }
  by apply Hiff in Hrec.
Qed.

(** ** Release, then acquire *)

(** A released client is the next one acquired for its address: PutClient
    of a client that is recyclable now and at the next reading of the
    clock, followed by GetClient of its address, hands the same client
    back, with nothing dialled or closed, and leaves the idle list of the
    address as it was (an empty list when there was none). *)
Lemma PutClient_GetClient c p w :
  closed p = false ->
  LastErr c = None ->
  (timeout p = 0 \/
   (current w < LastUse c + timeout p `quot` 2 /\
    clock (S (ticks w)) < LastUse c + timeout p `quot` 2)) ->
  exists w',
    (_ ← PutClient c; GetClient (addr c)) (p, w)
    = Done (Ok c)
           (set_pool (<[addr c := default [] (pool p !! addr c)]> (pool p)) p,
            w') /\
    wire w' = wire w /\ dialled w' = dialled w.
Proof.
  intros Hopen Hc Htime.
  set (cache := default [] (pool p !! addr c)).
  set (p1 := set_pool (<[addr c := c :: cache]> (pool p)) p).
  assert (Hget : forall v,
             (timeout p = 0 \/ current v < LastUse c + timeout p `quot` 2) ->
             exists v',
               GetClient (addr c) (p1, v)
               = Done (Ok c) (set_pool (<[addr c := cache]> (pool p)) p, v') /\
               wire v' = wire v /\ dialled v' = dialled v).
  { intros v Hv. unfold GetClient. cbn [closed p1 set_pool pool].
    rewrite Hopen, lookup_insert_eq. cbn [length GetClient_loop].
    rewrite (bind_Done (Remove_Front (c :: cache)) _ v _ _ eq_refl).
    pose proof (isRecyclable_healthy p1 c v Hc) as Hrec.
    change (timeout p1) with (timeout p) in Hrec.
    destruct (decide (timeout p = 0)) as [Ht|Ht].
    - rewrite (bind_Done _ _ _ _ _ Hrec). exists v. cbn.
      by rewrite insert_insert_eq.
    - destruct Hv as [?|Hv]; [done|].
      apply Z.ltb_lt in Hv. rewrite Hv in Hrec.
      rewrite (bind_Done _ _ _ _ _ Hrec). exists (tick v). cbn.
      by rewrite insert_insert_eq. }
  unfold mbind, St_mbind, St_bind, PutClient. rewrite Hopen.
  rewrite (isRecyclable_healthy p c w Hc).
  destruct (decide (timeout p = 0)) as [Ht|Ht].
  - fold cache p1. apply Hget. by left.
  - destruct Htime as [?|[Hnow Hnext]]; [done|].
    apply Z.ltb_lt in Hnow. rewrite Hnow. fold cache p1.
    destruct (Hget (tick w)) as (v' & Hrun & Hw & Hd); [by right|].
    exists v'. by split_and!.
Qed.

(** ** What Close puts on the wire *)

Lemma Close_range_wire order :
  NoDup order ->
  forall p w,
  exists p' w',
    Close_range order (p, w) = Done tt (p', w') /\
    wire w' = wire w
              ++ concat ((fun a => closes (default [] (pool p !! a))) <$> order).
Proof.
  induction 1 as [|addr order Hfresh _ IH]; intros p w.
  - exists p, w. cbn. by rewrite app_nil_r.
  - cbn [Close_range fmap list_fmap concat].
    assert (Hsame : forall q,
               (forall a, a <> addr -> pool q !! a = pool p !! a) ->
               (fun a => closes (default [] (pool q !! a))) <$> order
               = (fun a => closes (default [] (pool p !! a))) <$> order).
    { intros q Hq. apply list_fmap_ext. intros i a Ha. rewrite Hq; [done|].
      intros ->. apply Hfresh. apply list_elem_of_lookup. eauto. }
    destruct (pool p !! addr) as [l|] eqn:Hl.
    + destruct (Close_loop_run l [] w) as (w1 & Hrun & Hw1 & _).
      rewrite app_nil_r in Hrun. rewrite Hrun.
      destruct (IH (set_pool (delete addr (pool p)) p) w1)
        as (p' & w' & Hrange & Hw).
      exists p', w'. split; [done|]. rewrite Hw, Hw1.
      rewrite Hsame; [by rewrite <- app_assoc|].
      intros a Hne. cbn. by rewrite lookup_delete_ne.
    + destruct (IH p w) as (p' & w' & Hrange & Hw).
      exists p', w'. split; [done|]. by rewrite Hw.
Qed.

(** Close on an open pool closes each idle connection exactly once: what
    it adds to the wire is, address after address in the order the keys
    are visited, the close of every idle client of that address from the
    front of its list to the back, and nothing else. *)
Lemma Close_closes_each_once order p w :
  closed p = false ->
  NoDup order ->
  exists p1 w1,
    Close order (p, w) = Done None (p1, w1) /\
    wire w1 = wire w
              ++ concat ((fun a => closes (default [] (pool p !! a))) <$> order).
Proof.
  intros Hopen Hnodup. unfold Close. rewrite Hopen.
  destruct (Close_range_wire order Hnodup (set_closed true p) w)
    as (p1 & w1 & Hrange & Hw).
  exists p1, w1. by rewrite (bind_Done _ _ _ _ _ Hrange).
Qed.

End More_pool_facts.

(** * Invariants of the registry *)

Section Registry_facts.
Context `{Platform}.

(** ** Lists only shrink *)

Lemma splits_sublist {A} (l k d : list A) : splits l k d -> k `sublist_of` l.
Proof. induction 1; by constructor. Qed.

Lemma shrunk_refl p : shrunk p p.
Proof. intros a l Hl. by exists l. Qed.

Lemma shrunk_trans p1 p2 p3 : shrunk p1 p2 -> shrunk p2 p3 -> shrunk p1 p3.
Proof.
  intros H12 H23 a l1 Hl1.
  destruct (H12 a l1 Hl1) as (l2 & Hl2 & Hs12).
  destruct (H23 a l2 Hl2) as (l3 & Hl3 & Hs23).
  exists l3. split; [done|]. by etrans.
Qed.

(** One entry replaced by a part of itself, or removed. *)
Lemma shrunk_entry p a l (o : option (list RedisClient)) m :
  pool p !! a = Some l ->
  (forall l', o = Some l' -> l' `sublist_of` l) ->
  (forall a', m !! a' = if decide (a' = a) then o else pool p !! a') ->
  shrunk (set_pool m p) p.
Proof.
  intros Hl Ho Hm a' l' Hl'. cbn in Hl'. rewrite Hm in Hl'.
  destruct (decide (a' = a)) as [->|Hne].
  - exists l. split; [done|]. by apply Ho.
  - by exists l'.
Qed.

Lemma shrunk_idle p' p c : shrunk p' p -> idle p' c -> idle p c.
Proof.
  intros Hs (a & l' & Hl' & Hin).
  destruct (Hs a l' Hl') as (l & Hl & Hsub).
  exists a, l. split; [done|]. by eapply elem_of_sublist.
Qed.

Lemma Cleanup_range_shrunk order q v :
  exists q' v',
    Cleanup_range order (q, v) = Done tt (q', v') /\
    shrunk q' q /\ dialled v' = dialled v.
Proof.
  revert q v. induction order as [|a order IH]; intros q v.
  - exists q, v. split_and!; [done|apply shrunk_refl|done].
  - cbn [Cleanup_range]. destruct (pool q !! a) as [l|] eqn:Hl; [|apply IH].
    rewrite Cleanup_loop_run.
    destruct (sweep_run q l v)
      as (kl & dl & v1 & Hs & Hsp & _ & _ & _ & _ & Hd1).
    rewrite Hs.
    set (m1 := if decide (length kl = 0%nat) then delete a (pool q)
               else <[a := kl]> (pool q)).
    destruct (IH (set_pool m1 q) v1) as (q' & v' & Hrange & Hsub & Hd).
    exists q', v'. split.
    { unfold m1 in Hrange. by destruct (decide (length kl = 0%nat)). }
    split; [|congruence].
    apply (shrunk_trans _ _ _ Hsub).
    apply (shrunk_entry q a l (pruned kl)); [done| |].
    + intros l' Hl'. destruct kl; [done|]. injection Hl' as <-.
      by apply (splits_sublist _ _ dl).
    + intros a'. unfold m1. apply swept_entry.
Qed.

Lemma Cleanup_shrunk order q v :
  exists e q' v',
    Cleanup order (q, v) = Done e (q', v') /\
    shrunk q' q /\ dialled v' = dialled v.
Proof.
  unfold Cleanup. destruct (closed q).
  { exists (Some ErrClosedRedisPool), q, v. split_and!; [done|apply shrunk_refl|done]. }
  destruct (Cleanup_range_shrunk order q v) as (q' & v' & Hrange & Hsub & Hd).
  rewrite (bind_Done _ _ _ _ _ Hrange). by exists None, q', v'.
Qed.

Lemma Close_shrunk order q v :
  exists q' v',
    Close order (q, v) = Done None (q', v') /\
    shrunk q' q /\ dialled v' = dialled v.
Proof.
  unfold Close. destruct (closed q).
  { exists q, v. split_and!; [done|apply shrunk_refl|done]. }
  destruct (Close_range_run order (set_closed true q) v)
    as (q' & v' & evs & Hrange & _ & _ & _ & Hpool & _ & _ & Hd & _).
  rewrite (bind_Done _ _ _ _ _ Hrange). exists q', v'.
  split_and!; [done| |done].
  intros a l' Hl'. rewrite Hpool in Hl'.
  destruct (decide (a ∈ order)); [done|]. by exists l'.
Qed.

(** Acquire: the client comes out of the list of its address, or it is
    new and its connection is the one just dialled. *)
Lemma GetClient_shrunk a q v :
  exists r q' v',
    GetClient a (q, v) = Done r (q', v') /\
    shrunk q' q /\ (dialled v <= dialled v')%nat /\
    ((exists c discarded rest,
         r = Ok c /\
         pool q !! a = Some (discarded ++ c :: rest) /\
         pool q' !! a = Some rest /\
         (forall a', a' <> a -> pool q' !! a' = pool q !! a') /\
         LastErr c = None)
     \/
     (forall c, r = Ok c ->
                conn c = dialled v /\ addr c = a /\ LastErr c = None /\
                dialled v' = S (dialled v))).
Proof.
  destruct (closed q) eqn:Hclosed.
  { exists (Err ErrClosedRedisPool), q, v.
    split_and!; [by apply GetClient_closed|apply shrunk_refl|done|].
    by right. }
  destruct (GetClient_open a q v Hclosed)
    as (r & q' & v' & discarded & Hrun & _ & _ & _ & Hother & _ & Hd & Hcase).
  exists r, q', v'. split; [done|].
  destruct Hcase
    as [(c & rest & Hl & -> & Hacc & Hl' & _)
       |(Hdis & Hl' & v1 & _ & Hd1 & Hnew & _)].
  - split_and!; [|done|].
    + intros a' l' Hq'. destruct (decide (a' = a)) as [->|Hne].
      * rewrite Hl' in Hq'. injection Hq' as <-.
        exists (discarded ++ c :: rest). split; [done|].
        apply sublist_inserts_l. by apply sublist_cons.
      * rewrite Hother in Hq' by done. by exists l'.
    + left. exists c, discarded, rest. split_and!; try done. by destruct Hacc.
  - split_and!; [|done|].
    + intros a' l' Hq'. destruct (decide (a' = a)) as [->|Hne].
      * rewrite Hl' in Hq'. destruct (pool q !! a) as [l|]; [|done].
        injection Hq' as <-. exists l. split; [done|]. apply sublist_nil_l.
      * rewrite Hother in Hq' by done. by exists l'.
    + right. intros c ->.
      destruct (NewRedisClient_run a (auth q) (timeout q) v1)
        as (r & v2 & evs & Hrun2 & _ & _ & _ & Hok).
      rewrite Hnew in Hrun2. injection Hrun2 as <- <-.
      destruct (Hok c eq_refl) as (? & ? & ? & ?).
      split_and!; try done; congruence.
Qed.

(** Release: the registry is left as it was, or the client, which has no
    recorded error, goes to the front of the list of its address. *)
Lemma PutClient_cases client p w :
  exists p' w',
    PutClient client (p, w) = Done tt (p', w') /\
    dialled w' = dialled w /\
    (p' = p \/
     (LastErr client = None /\
      p' = set_pool (<[addr client :=
                        client :: default [] (pool p !! addr client)]>
                       (pool p)) p)).
Proof.
  destruct (closed p) eqn:Hclosed.
  { eexists _, _. split; [by apply PutClient_closed|]. split; [done|by left]. }
  destruct (PutClient_run client p w Hclosed) as (b & w1 & Hrec & Hiff & Hrun).
  destruct (isRecyclable_run p client w)
    as (b' & w1' & Hrec' & _ & _ & Hd & _).
  rewrite Hrec in Hrec'. injection Hrec' as <- <-.
  rewrite Hrun. destruct b.
  - eexists _, _. split; [done|]. split; [done|]. right.
    split; [|done]. by destruct (proj1 Hiff eq_refl).
  - eexists _, _. split; [done|]. split; [done|by left].
Qed.

Lemma idle_put p c c' :
  idle (set_pool (<[addr c := c :: default [] (pool p !! addr c)]> (pool p)) p)
       c' ->
  c' = c \/ idle p c'.
Proof.
  intros (a & l & Hl & Hin). cbn in Hl.
  destruct (decide (a = addr c)) as [->|Hne].
  - rewrite lookup_insert_eq in Hl. injection Hl as <-.
    apply elem_of_cons in Hin as [->|Hin]; [by left|right].
    destruct (pool p !! addr c) as [l|] eqn:Hl; [|by apply elem_of_nil in Hin].
    by exists (addr c), l.
  - rewrite lookup_insert_ne in Hl by done. right. by exists a, l.
Qed.

(** ** Clients are filed under their own address *)

Lemma filed_shrunk p' p : shrunk p' p -> filed p -> filed p'.
Proof.
  intros Hs Hf a l' c Hl' Hin. destruct (Hs a l' Hl') as (l & Hl & Hsub).
  apply (Hf a l c Hl). by eapply elem_of_sublist.
Qed.

Lemma filed_put p c :
  filed p -> LastErr c = None ->
  filed (set_pool (<[addr c := c :: default [] (pool p !! addr c)]> (pool p)) p).
Proof.
  intros Hf Hc a l c' Hl Hin. cbn in Hl.
  destruct (decide (a = addr c)) as [->|Hne].
  - rewrite lookup_insert_eq in Hl. injection Hl as <-.
    apply elem_of_cons in Hin as [->|Hin]; [done|].
    destruct (pool p !! addr c) as [l|] eqn:Hl; [|by apply elem_of_nil in Hin].
    by apply (Hf _ l).
  - rewrite lookup_insert_ne in Hl by done. by apply (Hf _ l).
Qed.

Lemma call_filed k p w :
  filed p ->
  exists r p' w',
    call k (p, w) = Done r (p', w') /\ filed p' /\ hands_out k r.
Proof.
  intros Hf. destruct k as [a|client|order|order]; cbn [call].
  - destruct (GetClient_shrunk a p w)
      as (r & p' & w' & Hrun & Hs & _ & Hcase).
    rewrite (bind_Done _ _ _ _ _ Hrun). eexists _, _, _.
    split; [done|]. split; [by apply (filed_shrunk _ _ Hs)|].
    destruct Hcase as [(c & dis & rest & -> & Hl & _ & _ & Hc)|Hnew].
    + split; [|done]. apply (Hf a _ c Hl).
      apply elem_of_app. right. by left.
    + destruct r as [c|e]; [|done].
      by destruct (Hnew c eq_refl) as (_ & ? & ? & _).
  - destruct (PutClient_cases client p w) as (p' & w' & Hrun & _ & Hcase).
    rewrite (bind_Done _ _ _ _ _ Hrun). eexists _, _, _.
    split; [done|]. split; [|done].
    destruct Hcase as [->|[Hc ->]]; [done|by apply filed_put].
  - destruct (Cleanup_shrunk order p w) as (e & p' & w' & Hrun & Hs & _).
    rewrite (bind_Done _ _ _ _ _ Hrun). eexists _, _, _.
    split; [done|]. split; [by apply (filed_shrunk _ _ Hs)|done].
  - destruct (Close_shrunk order p w) as (p' & w' & Hrun & Hs & _).
    rewrite (bind_Done _ _ _ _ _ Hrun). eexists _, _, _.
    split; [done|]. split; [by apply (filed_shrunk _ _ Hs)|done].
Qed.

(** Whatever the callers do, a pool whose idle clients are filed under
    their own address and have no recorded error stays so, and every
    client that an Acquire hands out is a client of the address asked for,
    with no recorded error. *)
Theorem calls_keep_filed ks p w :
  filed p ->
  exists rs p' w',
    calls ks (p, w) = Done rs (p', w') /\
    filed p' /\
    Forall2 hands_out ks rs.
Proof.
  revert p w. induction ks as [|k ks IH]; intros p w Hf.
  - exists [], p, w. by split_and!.
  - destruct (call_filed k p w Hf) as (r & p1 & w1 & Hcall & Hf1 & Hout).
    destruct (IH p1 w1 Hf1) as (rs & p' & w' & Hcalls & Hf' & Houts).
    exists (r :: rs), p', w'. cbn [calls].
    rewrite (bind_Done _ _ _ _ _ Hcall), (bind_Done _ _ _ _ _ Hcalls).
    split; [done|]. split; [done|]. by constructor.
Qed.

(** ** No connection is owned twice *)

Lemma owned_shrunk held p w p' w' :
  shrunk p' p -> (dialled w <= dialled w')%nat ->
  owned held p w -> owned held p' w'.
Proof.
  intros Hs Hd (Hh & Hnd & Hx & Hih & Hid & Hhd). split_and!.
  - done.
  - intros a l' Hl'. destruct (Hs a l' Hl') as (l & Hl & Hsub).
    apply (sublist_NoDup _ (conn <$> l)); [by apply (Hnd a)|].
    by apply fmap_sublist.
  - intros a1 a2 l1' l2' c1 c2 Hne Hl1' Hl2' Hc1 Hc2.
    destruct (Hs _ _ Hl1') as (l1 & Hl1 & Hs1).
    destruct (Hs _ _ Hl2') as (l2 & Hl2 & Hs2).
    apply (Hx a1 a2 l1 l2); try done; by eapply elem_of_sublist.
  - intros c Hc. apply Hih. by apply (shrunk_idle p').
  - intros c Hc. pose proof (Hid c (shrunk_idle _ _ _ Hs Hc)). lia.
  - intros n Hn. pose proof (Hhd n Hn). lia.
Qed.

Lemma owned_grow n held p w :
  owned held p w ->
  n ∉ held -> (forall c, idle p c -> conn c <> n) -> (n < dialled w)%nat ->
  owned (n :: held) p w.
Proof.
  intros (Hh & Hnd & Hx & Hih & Hid & Hhd) Hn Hout Hlt. split_and!; try done.
  - by apply NoDup_cons.
  - intros c Hc [Heq|Hin]%elem_of_cons; [by apply (Hout c)|by apply (Hih c)].
  - intros m [->|Hm]%elem_of_cons; [done|by apply Hhd].
Qed.

Lemma owned_put c held p w :
  owned held p w -> conn c ∈ held ->
  owned (filter (fun n => n <> conn c) held)
        (set_pool (<[addr c := c :: default [] (pool p !! addr c)]> (pool p)) p)
        w.
Proof.
  intros (Hh & Hnd & Hx & Hih & Hid & Hhd) Hc.
  assert (Hcache : forall c', c' ∈ default [] (pool p !! addr c) ->
                              pool p !! addr c
                              = Some (default [] (pool p !! addr c))).
  { intros c' Hin. destruct (pool p !! addr c) as [l|]; [done|].
    by apply elem_of_nil in Hin. }
  assert (Hnew : forall c', idle p c' -> conn c' <> conn c).
  { intros c' Hc' Heq. apply (Hih c' Hc'). by rewrite Heq. }
  split_and!.
  - by apply NoDup_filter.
  - intros a l Hl. cbn in Hl. destruct (decide (a = addr c)) as [->|Hne].
    + rewrite lookup_insert_eq in Hl. injection Hl as <-.
      rewrite fmap_cons. apply NoDup_cons. split.
      * intros (c' & Heq & Hin)%list_elem_of_fmap.
        apply (Hnew c'); [|done]. eexists _, _. split; [by apply (Hcache c')|done].
      * destruct (pool p !! addr c) as [l|] eqn:Hl; [by apply (Hnd (addr c))|].
        constructor.
    + rewrite lookup_insert_ne in Hl by done. by apply (Hnd a).
  - intros a1 a2 l1 l2 c1 c2 Hne Hl1 Hl2 Hc1 Hc2. cbn in Hl1, Hl2.
    destruct (decide (a1 = addr c)) as [->|Hne1].
    + rewrite lookup_insert_eq in Hl1. injection Hl1 as <-.
      rewrite lookup_insert_ne in Hl2 by done.
      apply elem_of_cons in Hc1 as [->|Hc1].
      * intros Heq. apply (Hnew c2); [by exists a2, l2|done].
      * apply (Hx (addr c) a2 (default [] (pool p !! addr c)) l2); try done.
        by apply (Hcache c1).
    + rewrite lookup_insert_ne in Hl1 by done.
      destruct (decide (a2 = addr c)) as [->|Hne2].
      * rewrite lookup_insert_eq in Hl2. injection Hl2 as <-.
        apply elem_of_cons in Hc2 as [->|Hc2].
        -- apply (Hnew c1). by exists a1, l1.
        -- apply (Hx a1 (addr c) l1 (default [] (pool p !! addr c)));
             try done.
           by apply (Hcache c2).
      * rewrite lookup_insert_ne in Hl2 by done. by apply (Hx a1 a2 l1 l2).
  - intros c' [->|Hc']%idle_put [Hne Hin]%list_elem_of_filter; [done|].
    by apply (Hih c').
  - intros c' [->|Hc']%idle_put; [by apply Hhd|by apply Hid].
  - intros n [_ Hn]%list_elem_of_filter. by apply Hhd.
Qed.

Lemma owned_drop n held p w :
  owned held p w -> owned (filter (fun m => m <> n) held) p w.
Proof.
  intros (Hh & Hnd & Hx & Hih & Hid & Hhd). split_and!; try done.
  - by apply NoDup_filter.
  - intros c Hc [_ Hin]%list_elem_of_filter. by apply (Hih c).
  - intros m [_ Hm]%list_elem_of_filter. by apply Hhd.
Qed.

Lemma owned_wf held p w : owned held p w -> registry_wf p w.
Proof.
  intros (_ & Hnd & Hx & _ & Hid & _). split; [|done].
  intros a1 a2 l1 l2 i1 i2 c1 c2 Hl1 Hi1 Hl2 Hi2 Heq.
  destruct (decide (a1 = a2)) as [->|Hne].
  - split; [done|]. rewrite Hl1 in Hl2. injection Hl2 as <-.
    apply (NoDup_lookup (conn <$> l1) i1 i2 (conn c1)).
    + by apply (Hnd a2).
    + by rewrite list_lookup_fmap, Hi1.
    + by rewrite list_lookup_fmap, Hi2, Heq.
  - exfalso. apply (Hx a1 a2 l1 l2 c1 c2); try done.
    + by apply list_elem_of_lookup_2 in Hi1.
    + by apply list_elem_of_lookup_2 in Hi2.
Qed.

Lemma owned_new au t w : owned [] (NewRedisPool au t) w.
Proof.
  assert (Hnone : forall c, ~ idle (NewRedisPool au t) c).
  { intros c (a & l & Hl & _). cbn in Hl. by rewrite lookup_empty in Hl. }
  split_and!.
  - constructor.
  - intros a l Hl. cbn in Hl. by rewrite lookup_empty in Hl.
  - intros a1 a2 l1 l2 c1 c2 _ Hl _. cbn in Hl. by rewrite lookup_empty in Hl.
  - intros c Hc. by destruct (Hnone c).
  - intros c Hc. by destruct (Hnone c).
  - by intros n Hn%elem_of_nil.
Qed.

(** No connection is ever owned twice.  When the connections the callers
    hold and the idle ones are all different and all dialled, and a
    Release gives back a connection that is held, every call of the pool
    returns and leaves them so: an Acquire hands out a connection that is
    neither idle any more nor held by anyone else, a Release, a Cleanup
    and a Close never duplicate one.  The registry then holds no
    connection twice. *)
Theorem call_keeps_owned k held p w :
  owned held p w ->
  releases_held k held ->
  exists r p' w',
    call k (p, w) = Done r (p', w') /\
    owned (held_after k r held) p' w' /\
    registry_wf p' w'.
Proof.
  intros Ho Hk.
  assert (exists r p' w',
             call k (p, w) = Done r (p', w') /\
             owned (held_after k r held) p' w') as (r & p' & w' & Hrun & Ho');
    [|exists r, p', w'; split_and!; [done|done|by apply (owned_wf _ _ _ Ho')]].
  destruct k as [a|client|order|order]; cbn [call held_after].
  - destruct (GetClient_shrunk a p w)
      as (r & p' & w' & Hrun & Hs & Hd & Hcase).
    rewrite (bind_Done _ _ _ _ _ Hrun). eexists _, _, _. split; [done|].
    pose proof (owned_shrunk held p w p' w' Hs Hd Ho) as Ho'.
    destruct Ho as (Hh & Hnd & Hx & Hih & Hid & Hhd).
    destruct Hcase as [(c & dis & rest & -> & Hl & Hl' & Hother & _)|Hnew].
    + assert (idle p c) as Hc.
      { exists a, (dis ++ c :: rest). split; [done|].
        apply elem_of_app. right. by left. }
      apply owned_grow; [done|by apply Hih| |].
      * intros c' (a' & l' & Hq' & Hin) Heq.
        destruct (decide (a' = a)) as [->|Hne].
        -- rewrite Hl' in Hq'. injection Hq' as <-.
           pose proof (Hnd a _ Hl) as Hnodup.
           rewrite fmap_app, fmap_cons in Hnodup.
           apply NoDup_app in Hnodup as (_ & _ & Hnodup).
           apply NoDup_cons in Hnodup as [Hnotin _].
           apply Hnotin. rewrite <- Heq. by apply list_elem_of_fmap_2.
        -- rewrite Hother in Hq' by done.
           apply (Hx a' a l' (dis ++ c :: rest) c' c); try done.
           apply elem_of_app. right. by left.
      * pose proof (Hid c Hc). lia.
    + destruct r as [c|e]; [|done].
      destruct (Hnew c eq_refl) as (Hconn & _ & _ & Hd').
      apply owned_grow; [done| | |lia].
      * intros Hin%Hhd. lia.
      * intros c' Hc'%(shrunk_idle _ _ _ Hs). pose proof (Hid c' Hc'). lia.
  - destruct (PutClient_cases client p w) as (p' & w' & Hrun & Hd & Hcase).
    rewrite (bind_Done _ _ _ _ _ Hrun). eexists _, _, _. split; [done|].
    assert (Hw : forall h q, owned h q w -> owned h q w').
    { intros h q. apply owned_shrunk; [apply shrunk_refl|lia]. }
    apply Hw. destruct Hcase as [->|[_ ->]].
    + by apply owned_drop.
    + by apply owned_put.
  - destruct (Cleanup_shrunk order p w) as (e & p' & w' & Hrun & Hs & Hd).
    rewrite (bind_Done _ _ _ _ _ Hrun). eexists _, _, _. split; [done|].
    apply (owned_shrunk held p w); [done|lia|done].
  - destruct (Close_shrunk order p w) as (p' & w' & Hrun & Hs & Hd).
    rewrite (bind_Done _ _ _ _ _ Hrun). eexists _, _, _. split; [done|].
    apply (owned_shrunk held p w); [done|lia|done].
Qed.

(** ** A pool with no idle timeout *)

Lemma sweep_all_kept p l w :
  timeout p = 0 -> Forall (fun c => LastErr c = None) l ->
  sweep p l w = Done l w.
Proof.
  intros Ht. induction 1 as [|c l Hc _ IH]; [done|].
  cbn [sweep].
  pose proof (isRecyclable_healthy p c w Hc) as Hrec.
  destruct (decide (timeout p = 0)); [|done].
  rewrite (bind_Done _ _ _ _ _ Hrec). by rewrite (bind_Done _ _ _ _ _ IH).
Qed.

(** In a pool with no idle timeout, Cleanup closes nothing and reads no
    clock when the idle clients have no recorded error: the world is left
    as it was, and the only change to the registry is that the empty
    lists of the addresses visited are removed. *)
Theorem Cleanup_timeout_zero order p w :
  closed p = false ->
  timeout p = 0 ->
  (forall c, idle p c -> LastErr c = None) ->
  exists p',
    Cleanup order (p, w) = Done None (p', w) /\
    forall a, pool p' !! a
              = if decide (a ∈ order) then pool p !! a ≫= pruned
                else pool p !! a.
Proof.
  intros Hopen Ht Hhealthy. unfold Cleanup. rewrite Hopen.
  assert (exists p',
             Cleanup_range order (p, w) = Done tt (p', w) /\
             forall a, pool p' !! a
                       = if decide (a ∈ order) then pool p !! a ≫= pruned
                         else pool p !! a) as (p' & Hrange & Hpool).
  { clear Hopen. revert p Ht Hhealthy.
    induction order as [|addr order IH]; intros p Ht Hhealthy.
    { exists p. split; [done|]. intros a.
      destruct (decide (a ∈ [])) as [Hin|]; [by apply elem_of_nil in Hin|done]. }
    cbn [Cleanup_range].
    assert (Hstep : forall p1,
               timeout p1 = 0 ->
               (forall a, pool p1 !! a
                          = if decide (a = addr) then pool p !! addr ≫= pruned
                            else pool p !! a) ->
               exists p',
                 Cleanup_range order (p1, w) = Done tt (p', w) /\
                 forall a, pool p' !! a
                           = if decide (a ∈ addr :: order)
                             then pool p !! a ≫= pruned else pool p !! a).
    { intros p1 Ht1 Hp1.
      assert (Hidle : forall c, idle p1 c -> idle p c).
      { intros c (a & l & Hl & Hin). rewrite Hp1 in Hl.
        destruct (decide (a = addr)) as [->|Hne]; [|by exists a, l].
        destruct (pool p !! addr) as [l0|] eqn:Hl0; [|done].
        exists addr, l0. split; [done|]. destruct l0; [done|].
        cbn in Hl. by injection Hl as <-. }
      destruct (IH p1 Ht1) as (p' & Hrange & Hpool).
      { intros c Hc. by apply Hhealthy, Hidle. }
      exists p'. split; [done|]. intros a. rewrite Hpool, !Hp1.
      destruct (decide (a = addr)) as [->|Hne].
      - destruct (decide (addr ∈ addr :: order)) as [_|Hout];
          [|by destruct Hout; left].
        destruct (pool p !! addr) as [[|c l]|]; cbn;
          by destruct (decide (addr ∈ order)).
      - destruct (decide (a ∈ order)) as [Hin|Hout],
                 (decide (a ∈ addr :: order)) as [Hin'|Hout']; try done.
        + destruct Hout'. by right.
        + by apply elem_of_cons in Hin' as [?|?]. }
    destruct (pool p !! addr) as [l|] eqn:Hl.
    - rewrite Cleanup_loop_run, sweep_all_kept; [|done|].
      2:{ apply Forall_forall. intros c Hc. apply Hhealthy. by exists addr, l. }
      destruct (decide (length l = 0%nat)) as [Hlen|Hlen].
      + apply Hstep; [done|]. intros a. cbn.
        destruct l; [|done].
        destruct (decide (a = addr)) as [->|Hne];
          [by rewrite lookup_delete_eq|by rewrite lookup_delete_ne].
      + apply Hstep; [done|]. intros a. cbn.
        destruct (decide (a = addr)) as [->|Hne];
          [|by rewrite lookup_insert_ne].
        rewrite lookup_insert_eq. by destruct l.
    - apply Hstep; [done|]. intros a.
      by destruct (decide (a = addr)) as [->|Hne]. }
  exists p'. by rewrite (bind_Done _ _ _ _ _ Hrange).
Qed.

End Registry_facts.

(** * Instances of the properties above *)

(** Three entries, two of them for slot 0: the later one wins. *)
Lemma SlotsInfo_pairs_witness :
  exists slots st,
    @SlotsInfo Server.platform (Demo.c0, Demo.w0) = Done (Ok slots) st /\
    slots !! 0 = Some 9 /\ slots !! 7 = Some 2 /\ slots !! 1 = None.
Proof.
  destruct (@SlotsInfo_pairs Server.platform Demo.c0 Demo.w0
              (RArray [RArray [RInt 0; RInt 5]; RArray [RInt 7; RInt 2];
                       RArray [RInt 0; RInt 9]])
              [RArray [RInt 0; RInt 5]; RArray [RInt 7; RInt 2];
               RArray [RInt 0; RInt 9]]
              [(0, 5); (7, 2); (0, 9)] eq_refl eq_refl eq_refl)
    as (slots & Hrun & Hlast & Hnone).
  { repeat constructor. }
  exists slots. eexists. split; [exact Hrun|]. split_and!.
  - apply (Hlast [(0, 5); (7, 2)] 0 9 []); [done|].
    by intros ?%elem_of_nil.
  - apply (Hlast [(0, 5)] 7 2 [(0, 9)]); [done|].
    by intros ?%list_elem_of_singleton.
  - apply Hnone. intros Hin.
    repeat (apply elem_of_cons in Hin as [?|Hin]; [done|]).
    by apply elem_of_nil in Hin.
Defined.

(** An entry of three integers is refused, with its index. *)
Lemma SlotsInfo_first_bad_witness :
  exists st,
    @SlotsInfo Demo.platform (Demo.c0, Demo.w0)
    = Done (Err (Errorf "invalid response[%d] = %v"
                        [FInt 0; FReply (RArray [RInt 1; RInt 2; RInt 3])]))
           st.
Proof.
  eexists.
  refine (@SlotsInfo_first_bad Demo.platform Demo.c0 Demo.w0
            (RArray [RArray [RInt 1; RInt 2; RInt 3]])
            [] [] (RArray [RInt 1; RInt 2; RInt 3]) []
            eq_refl eq_refl eq_refl _ _).
  - constructor.
  - intros pr Hpr. vm_compute in Hpr. discriminate Hpr.
Defined.

(** The INFO of a replica names the host of its master. *)
Lemma GetInfo_fields_witness :
  exists info st,
    @GetInfo Demo.platform (Demo.c0, Demo.w0) = Done (Ok info) st /\
    info !! "" = None /\
    info !! "master_host" = Some "10.0.0.1".
Proof.
  destruct (@GetInfo_fields Demo.platform Demo.c0 Demo.w0
              (RBulk Demo.info_replica) Demo.info_replica
              eq_refl eq_refl eq_refl)
    as (info & Hrun & Hempty & _ & Hlast).
  exists info. eexists. split; [exact Hrun|]. split; [exact Hempty|].
  apply (Hlast ["role:slave"] "master_host:10.0.0.1"
               ["master_port:6380"; ""]); [by vm_compute|by vm_compute|].
  repeat constructor; intros v' Hv'; vm_compute in Hv'; discriminate Hv'.
Defined.

(** A memory limit that is no integer. *)
Lemma GetMaxMemory_invalid_witness :
  exists st,
    @GetMaxMemory Server.platform (Demo.c0, Demo.w0)
    = Done (Err (Errorf "invalid response = %v"
                        [FReply (RArray [RBulk "maxmemory"; RBulk "1gb"])]))
           st.
Proof.
  eexists.
  refine (@GetMaxMemory_invalid Server.platform Demo.c0 Demo.w0
            (RArray [RBulk "maxmemory"; RBulk "1gb"]) eq_refl eq_refl _).
  right. right. exists (RBulk "maxmemory"), (RBulk "1gb").
  split; [reflexivity|]. vm_compute. by eexists.
Defined.

Lemma command_refreshes_witness :
  exists c' w',
    @command Demo.platform "PING" [] (Demo.c0, Demo.w0)
    = Done (Ok (RStatus "PONG")) (c', w').
Proof.
  destruct (@command_refreshes Demo.platform "PING" [] Demo.c0 Demo.w0
              (RStatus "PONG") eq_refl eq_refl) as (c' & w' & Hrun & _).
  exists c', w'. exact Hrun.
Defined.

(** Rejected after one second, and so after two. *)
Lemma isRecyclable_expires_witness :
  exists v1,
    @isRecyclable Demo.platform Server.p2 Demo.c0 Server.w2 = Done false v1.
Proof.
  refine (@isRecyclable_expires Demo.platform Server.p2 Demo.c0
            Server.w1 (tick Server.w1) Server.w2 eq_refl _).
  by vm_compute.
Defined.

Lemma PutClient_GetClient_witness :
  exists st,
    (_ ← @PutClient Demo.platform Demo.c3;
     @GetClient Demo.platform "10.0.0.8:6379") (Demo.p0, Demo.w0)
    = Done (Ok Demo.c3) st.
Proof.
  destruct (@PutClient_GetClient Demo.platform Demo.c3 Demo.p0 Demo.w0
              eq_refl eq_refl) as (w' & Hrun & _).
  { right. split; by vm_compute. }
  eexists. exact Hrun.
Defined.

Lemma Close_closes_each_once_witness :
  exists p1 w1,
    @Close Demo.platform ["10.0.0.9:6379"] (Demo.p0, Demo.w0)
    = Done None (p1, w1) /\
    wire w1 = [EvClose 1%nat; EvClose 0%nat].
Proof.
  destruct (@Close_closes_each_once Demo.platform ["10.0.0.9:6379"]
              Demo.p0 Demo.w0 eq_refl (NoDup_singleton _))
    as (p1 & w1 & Hrun & Hwire).
  exists p1, w1. split; [exact Hrun|]. rewrite Hwire. by vm_compute.
Defined.

Lemma Server_filed : @filed Server.p1.
Proof.
  intros a l c Hl Hin. cbn in Hl.
  apply lookup_singleton_Some in Hl as [<- <-].
  by apply list_elem_of_singleton in Hin as ->.
Qed.

Lemma calls_keep_filed_witness :
  exists rs p' w',
    @calls Demo.platform
           [CallGetClient "10.0.0.9:6379"; CallPutClient Demo.c3;
            CallCleanup ["10.0.0.9:6379"]]
           (Server.p1, Demo.w0)
    = Done rs (p', w') /\
    @filed p'.
Proof.
  destruct (@calls_keep_filed Demo.platform
              [CallGetClient "10.0.0.9:6379"; CallPutClient Demo.c3;
               CallCleanup ["10.0.0.9:6379"]]
              Server.p1 Demo.w0 Server_filed)
    as (rs & p' & w' & Hrun & Hfiled & _).
  exists rs, p', w'. split; [exact Hrun|exact Hfiled].
Defined.

Lemma Server_owned : @owned [3%nat] Server.p1 Demo.w0.
Proof.
  assert (Hidle : forall c, @idle Server.p1 c -> c = Demo.c0).
  { intros c (a & l & Hl & Hin). cbn in Hl.
    apply lookup_singleton_Some in Hl as [<- <-].
    by apply list_elem_of_singleton in Hin. }
  split_and!.
  - apply NoDup_singleton.
  - intros a l Hl. cbn in Hl.
    apply lookup_singleton_Some in Hl as [<- <-]. apply NoDup_singleton.
  - intros a1 a2 l1 l2 c1 c2 Hne Hl1 Hl2. cbn in Hl1, Hl2.
    apply lookup_singleton_Some in Hl1 as [<- _].
    by apply lookup_singleton_Some in Hl2 as [<- _].
  - intros c ->%Hidle. by intros ?%list_elem_of_singleton.
  - intros c ->%Hidle. cbn. lia.
  - intros n ->%list_elem_of_singleton. cbn. lia.
Qed.

(** The caller that holds connection 3 gives it back. *)
Lemma call_keeps_owned_witness :
  exists r p' w',
    @call Demo.platform (CallPutClient Demo.c3) (Server.p1, Demo.w0)
    = Done r (p', w') /\
    @owned [] p' w'.
Proof.
  destruct (@call_keeps_owned Demo.platform (CallPutClient Demo.c3)
              [3%nat] Server.p1 Demo.w0 Server_owned)
    as (r & p' & w' & Hrun & Howned & _).
  { apply list_elem_of_here. }
  exists r, p', w'. split; [exact Hrun|exact Howned].
Defined.

Lemma Server_healthy c : @idle Server.p1 c -> LastErr c = None.
Proof.
  intros (a & l & Hl & Hin). cbn in Hl.
  apply lookup_singleton_Some in Hl as [<- <-].
  by apply list_elem_of_singleton in Hin as ->.
Qed.

Lemma Cleanup_timeout_zero_witness :
  exists p',
    @Cleanup Demo.platform ["10.0.0.9:6379"] (Server.p1, Demo.w0)
    = Done None (p', Demo.w0) /\
    pool p' !! "10.0.0.9:6379" = Some [Demo.c0].
Proof.
  destruct (@Cleanup_timeout_zero Demo.platform ["10.0.0.9:6379"]
              Server.p1 Demo.w0 eq_refl eq_refl Server_healthy)
    as (p' & Hrun & Hpool).
  exists p'. split; [exact Hrun|]. rewrite Hpool. by vm_compute.
Defined.
